(** * secp256k1: curve-specific arithmetic and BIP-340 Schnorr signatures

    A shallow embedding of [src/secp256k1.ts] (noble-curves): the fixed
    addition chain for square roots in the base field, the GLV scalar
    decomposition, the tagged hash with its prefix cache, and the Schnorr
    key normalisation, signing and verification routines.

    JavaScript [bigint] values are modelled as [Z]; [Uint8Array] values as
    [list byte]; thrown exceptions as the [Err] case of [result]; the
    module-level tag-prefix object as an explicit store threaded through
    every computation that can touch it. *)

From Stdlib Require Import ZArith List Lia Znumtheory Bool.
From Stdlib Require Import Init.Byte Strings.Byte.
From Stdlib Require Zmod.
From Stdlib Require Import FunctionalExtensionality.
From Bignums Require Import BigZ.
From stdpp Require Import gmap strings.
Import ListNotations.

#[local] Open Scope Z_scope.

(** ** JavaScript bigint arithmetic *)

Module JS.

(** [a % b] on bigints truncates towards zero. *)
Definition rem (a b : Z) : Z := Z.rem a b.

(** [a / b] on bigints truncates towards zero. *)
Definition div (a b : Z) : Z := Z.quot a b.

End JS.

(** ** abstract/modular.ts (imported helpers) *)

(** [mod(a, b)]: [const result = a % b; return result >= 0n ? result : b + result]. *)
Definition mod_ (a b : Z) : Z :=
  let result := JS.rem a b in
  if 0 <=? result then result else b + result.

(** [pow2(x, power, modulo)]: [power] rounds of [res *= res; res %= modulo]. *)
Definition pow2 (x power modulo : Z) : Z :=
  Z.iter power (fun res => JS.rem (res * res) modulo) x.

(** ** Curve constants *)

Definition secp256k1P : Z :=
  0xfffffffffffffffffffffffffffffffffffffffffffffffffffffffefffffc2f.
Definition secp256k1N : Z :=
  0xfffffffffffffffffffffffffffffffebaaedce6af48a03bbfd25e8cd0364141.

Definition _0n : Z := 0.
Definition _1n : Z := 1.
Definition _2n : Z := 2.

Definition divNearest (a b : Z) : Z := JS.div (a + JS.div b _2n) b.

(** ** Errors

    The source throws plain [Error] objects; they are told apart here by
    the failure they report. *)
Inductive error : Type :=
  | InputRangeError
  | NoSquareRoot
  | EndomorphismSplitFailure
  | MalformedEncoding
  | BadPublicKeyX
  | PointNotOnCurve
  | NonceIsZero
  | SignatureSelfCheckFailure
  | NotByteArray.

Inductive result (A : Type) : Type :=
  | Ok (a : A)
  | Err (e : error).
Arguments Ok {A} a.
Arguments Err {A} e.

(** ** The field [Fp] as configured in the source *)

Module Fp.
Definition sqr (x : Z) : Z := mod_ (x * x) secp256k1P.
Definition eql (a b : Z) : bool := a =? b.
Definition isValid (x : Z) : bool := (0 <=? x) && (x <? secp256k1P).
End Fp.

(** ** sqrtMod *)

Definition sqrtMod (y : Z) : result Z :=
  let P := secp256k1P in
  let _3n := 3 in let _6n := 6 in let _11n := 11 in let _22n := 22 in
  let _23n := 23 in let _44n := 44 in let _88n := 88 in
  let b2 := JS.rem (y * y * y) P in
  let b3 := JS.rem (b2 * b2 * y) P in
  let b6 := JS.rem (pow2 b3 _3n P * b3) P in
  let b9 := JS.rem (pow2 b6 _3n P * b3) P in
  let b11 := JS.rem (pow2 b9 _2n P * b2) P in
  let b22 := JS.rem (pow2 b11 _11n P * b11) P in
  let b44 := JS.rem (pow2 b22 _22n P * b22) P in
  let b88 := JS.rem (pow2 b44 _44n P * b44) P in
  let b176 := JS.rem (pow2 b88 _88n P * b88) P in
  let b220 := JS.rem (pow2 b176 _44n P * b44) P in
  let b223 := JS.rem (pow2 b220 _3n P * b3) P in
  let t1 := JS.rem (pow2 b223 _23n P * b22) P in
  let t2 := JS.rem (pow2 t1 _6n P * b2) P in
  let root := pow2 t2 _2n P in
  if negb (Fp.eql (Fp.sqr root) y) then Err NoSquareRoot else Ok root.

(** ** splitScalar (the [endo] entry of the curve definition) *)

Record split : Type := MkSplit {
  k1neg : bool;
  k1 : Z;
  k2neg : bool;
  k2 : Z
}.

Module Endo.
Definition beta : Z :=
    0x7ae96a2b657c07106e64479eac3434e99cf0497512f58995c1396c28719501ee.
Definition a1 : Z := 0x3086d221a7d46bcde86c90e49284eb15.
Definition b1 : Z := - _1n * 0xe4437ed6010e88286f547fa90abfe4c3.
Definition a2 : Z := 0x114ca50f7a8e2f3f657c1108d9d44cfd8.
Definition b2 : Z := a1.
Definition POW_2_128 : Z := 0x100000000000000000000000000000000.

(** Modelled from the spec: the fixed eigenvalue lambda of the
    endomorphism (x, y) -> (beta x, y), with phi(Q) = lambda Q; the
    source names only [beta]. *)
Definition lambda : Z :=
  0x5363ad4cc05c30e0a5261c028812645a122e22ea20816678df02967c1b23bd72.
End Endo.

(** The integer a returned magnitude stands for: negated when its flag
    is set. *)
Definition signed (neg : bool) (k : Z) : Z := if neg then - k else k.

Definition splitScalar (k : Z) : result split :=
  let n := secp256k1N in
  let a1 := Endo.a1 in
  let b1 := Endo.b1 in
  let a2 := Endo.a2 in
  let b2 := Endo.b2 in
  let POW_2_128 := Endo.POW_2_128 in
  let c1 := divNearest (b2 * k) n in
  let c2 := divNearest (- b1 * k) n in
  let k1 := mod_ (k - c1 * a1 - c2 * a2) n in
  let k2 := mod_ (- c1 * b1 - c2 * b2) n in
  let k1neg := POW_2_128 <? k1 in
  let k2neg := POW_2_128 <? k2 in
  let k1 := if k1neg then n - k1 else k1 in
  let k2 := if k2neg then n - k2 else k2 in
  if (POW_2_128 <? k1) || (POW_2_128 <? k2)
  then Err EndomorphismSplitFailure
  else Ok (MkSplit k1neg k1 k2neg k2).

(** ** Byte strings (abstract/utils.ts, imported helpers)

    Modelled from the spec: the fixed-width big-endian integer and byte
    codecs and the byte-sequence concatenation are consumed from the
    external library, whose file is not part of the sources at hand.
    A [Uint8Array] is a [list byte].  The [Hex] arguments of the source
    may also be hexadecimal strings; only the [Uint8Array] case is
    modelled. *)

Abbreviation bytes := (list byte).

Definition Z_of_byte (b : byte) : Z := Z.of_N (Byte.to_N b).

Definition byte_of_Z (z : Z) : byte :=
  match Byte.of_N (Z.to_N (Z.land z 255)) with
  | Some b => b
  | None => x00
  end.

(** [bytesToNumberBE]: the big-endian value of a byte string. *)
Definition bytesToInt (b : bytes) : Z :=
  fold_left (fun acc x => acc * 256 + Z_of_byte x) b 0.

Fixpoint numberToBytesBE_aux (len : nat) (n : Z) (acc : bytes) : bytes :=
  match len with
  | O => acc
  | S len' => numberToBytesBE_aux len' (Z.shiftr n 8) (byte_of_Z n :: acc)
  end.

(** [numberToBytesBE(n, len)] for [0 <= n < 256^len], the only range in
    which the source calls it: [n] written big-endian on [len] bytes. *)
Definition numberToBytesBE (n : Z) (len : nat) : bytes :=
  numberToBytesBE_aux len n [].

Definition numTo32b (n : Z) : bytes := numberToBytesBE n 32.

(** [concatBytes(...arrays)]. *)
Definition concatBytes (arrays : list bytes) : bytes := concat arrays.

(** [ensureBytes(hex, expectedLength?)] on a [Uint8Array]: a copy of it,
    or an exception when a length is expected and it has another one. *)
Definition ensureBytes (hex : bytes) (expectedLength : option nat) : result bytes :=
  match expectedLength with
  | Some len => if Nat.eqb (length hex) len then Ok hex else Err MalformedEncoding
  | None => Ok hex
  end.

(** ** SHA-256

    Modelled from the spec: the hash primitive H is SHA-256, which the
    source imports from the package [@noble/hashes]; it is written here
    after FIPS 180-4 on 32-bit words held in [Z]. *)

Module SHA256.

Definition w32 (x : Z) : Z := Z.land x 0xffffffff.
Definition add32 (x y : Z) : Z := w32 (x + y).
Definition rotr (n x : Z) : Z := Z.lor (Z.shiftr x n) (w32 (Z.shiftl x (32 - n))).
Definition shr (n x : Z) : Z := Z.shiftr x n.
Definition not32 (x : Z) : Z := Z.lxor x 0xffffffff.

Definition Ch (x y z : Z) : Z := Z.lxor (Z.land x y) (Z.land (not32 x) z).
Definition Maj (x y z : Z) : Z :=
  Z.lxor (Z.lxor (Z.land x y) (Z.land x z)) (Z.land y z).
Definition Sigma0 (x : Z) : Z := Z.lxor (Z.lxor (rotr 2 x) (rotr 13 x)) (rotr 22 x).
Definition Sigma1 (x : Z) : Z := Z.lxor (Z.lxor (rotr 6 x) (rotr 11 x)) (rotr 25 x).
Definition sigma0 (x : Z) : Z := Z.lxor (Z.lxor (rotr 7 x) (rotr 18 x)) (shr 3 x).
Definition sigma1 (x : Z) : Z := Z.lxor (Z.lxor (rotr 17 x) (rotr 19 x)) (shr 10 x).

(** The constants of FIPS 180-4 are fractional parts of roots of the
    first primes: [frac_root k q] is the first 32 bits of the fractional
    part of the k-th root of [q], that is the low word of the integer k-th
    root of [q * 2^(32 k)]. *)
Fixpoint iroot (k : Z) (x : Z) (bits : nat) (r : Z) : Z :=
  match bits with
  | O => r
  | S b =>
      let c := r + 2 ^ Z.of_nat b in
      iroot k x b (if c ^ k <=? x then c else r)
  end.

Definition frac_root (k q : Z) : Z := w32 (iroot k (q * 2 ^ (32 * k)) 36 0).

Definition is_prime (q : Z) : bool :=
  forallb (fun d => negb (q mod d =? 0) || (q <=? d))
          (map Z.of_nat (seq 2 17)).

(** The primes below 312: there are 64 of them. *)
Definition first_primes : list Z :=
  filter is_prime (map Z.of_nat (seq 2 310)).

Definition K : list Z := Eval cbv in map (frac_root 3) first_primes.

(** The eight working variables a..h, also the chaining value. *)
Record state : Type := MkState {
  sa : Z; sb : Z; sc : Z; sd : Z; se : Z; sf : Z; sg : Z; sh : Z
}.

Definition state_of_list (l : list Z) : state :=
  MkState (nth 0 l 0) (nth 1 l 0) (nth 2 l 0) (nth 3 l 0)
          (nth 4 l 0) (nth 5 l 0) (nth 6 l 0) (nth 7 l 0).

Definition H0 : state :=
  Eval cbv in state_of_list (map (frac_root 2) (firstn 8 first_primes)).

Definition round (s : state) (k w : Z) : state :=
  let T1 := add32 (add32 (add32 (add32 (sh s) (Sigma1 (se s)))
                                 (Ch (se s) (sf s) (sg s))) k) w in
  let T2 := add32 (Sigma0 (sa s)) (Maj (sa s) (sb s) (sc s)) in
  MkState (add32 T1 T2) (sa s) (sb s) (sc s) (add32 (sd s) T1) (se s) (sf s) (sg s).

(** [ws] is the window W(t) .. W(t+15) of the message schedule. *)
Fixpoint rounds (ks : list Z) (ws : list Z) (s : state) : state :=
  match ks with
  | [] => s
  | k :: ks' =>
      let next := add32 (add32 (add32 (sigma1 (nth 14 ws 0)) (nth 9 ws 0))
                               (sigma0 (nth 1 ws 0))) (nth 0 ws 0) in
      rounds ks' (tl ws ++ [next]) (round s k (nth 0 ws 0))
  end.

Definition compress (h : state) (block : list Z) : state :=
  let s := rounds K block h in
  MkState (add32 (sa h) (sa s)) (add32 (sb h) (sb s)) (add32 (sc h) (sc s))
          (add32 (sd h) (sd s)) (add32 (se h) (se s)) (add32 (sf h) (sf s))
          (add32 (sg h) (sg s)) (add32 (sh h) (sh s)).

(** Padding: a one bit, zero bits up to 56 modulo 64 bytes, and the
    message length in bits on 8 bytes. *)
Definition pad (msg : bytes) : bytes :=
  let len := length msg in
  let zeros := ((119 - len mod 64) mod 64)%nat in
  msg ++ x80 :: repeat x00 zeros ++ numberToBytesBE (8 * Z.of_nat len) 8.

Fixpoint words (fuel : nat) (b : bytes) : list Z :=
  match fuel, b with
  | S fuel', b0 :: b1 :: b2 :: b3 :: rest =>
      bytesToInt [b0; b1; b2; b3] :: words fuel' rest
  | _, _ => []
  end.

Fixpoint blocks (fuel : nat) (ws : list Z) (h : state) : state :=
  match fuel, ws with
  | S fuel', _ :: _ => blocks fuel' (skipn 16 ws) (compress h (firstn 16 ws))
  | _, _ => h
  end.

Definition digest (s : state) : bytes :=
  concat (map (fun w => numberToBytesBE w 4)
              [sa s; sb s; sc s; sd s; se s; sf s; sg s; sh s]).

Definition sha256 (msg : bytes) : bytes :=
  let p := pad msg in
  let ws := words (length p) p in
  digest (blocks (length ws) ws H0).

End SHA256.

Definition sha256 : bytes -> bytes := SHA256.sha256.

(** ** Field operations (abstract/modular.ts)

    Modelled from the spec: the generic finite-field framework over the
    fixed prime (add, multiply, negate, invert, canonicalisation) is an
    external collaborator of the source; [invert] is the extended Euclid
    loop on bigints, run here with a bound on its iterations. *)

Fixpoint invert_loop (fuel : nat) (a b x y u v : Z) : option (Z * Z) :=
  match fuel with
  | O => None
  | S fuel' =>
      if a =? 0 then Some (b, x)
      else
        let q := JS.div b a in
        let r := JS.rem b a in
        let m := x - u * q in
        let n := y - v * q in
        invert_loop fuel' r a u v m n
  end.

Definition invert (number modulo : Z) : result Z :=
  if (number =? 0) || (modulo <=? 0) then Err InputRangeError
  else
    let a := mod_ number modulo in
    match invert_loop (2 * Z.to_nat (Z.log2 modulo) + 3) a modulo 0 1 1 0 with
    | Some (gcd, x) => if gcd =? 1 then Ok (mod_ x modulo) else Err InputRangeError
    | None => Err InputRangeError
    end.

Module FpOps.
Definition add (a b : Z) : Z := mod_ (a + b) secp256k1P.
Definition sub (a b : Z) : Z := mod_ (a - b) secp256k1P.
Definition mul (a b : Z) : Z := mod_ (a * b) secp256k1P.
Definition neg (a : Z) : Z := mod_ (- a) secp256k1P.
Definition inv (a : Z) : result Z := invert a secp256k1P.
Definition isOdd (a : Z) : bool := Z.land a 1 =? 1.
End FpOps.

(** ** Error-passing notation *)

Definition bind_result {A B : Type} (r : result A) (k : A -> result B) : result B :=
  match r with
  | Ok a => k a
  | Err e => Err e
  end.

Notation "'let?' x ':=' e 'in' k" := (bind_result e (fun x => k))
  (at level 10, x pattern, e at level 100, k at level 200).

(** ** Curve points (abstract/weierstrass.ts)

    Modelled from the spec: the generic elliptic-curve group law is an
    external collaborator of the source.  Points are kept in projective
    coordinates, as the source's own [new Point(x, y, 1n)], [R.px] and
    [toAffine()] show; addition and doubling are the complete formulas of
    Renes, Costello and Batina for y^2 = x^3 + a x + b; scalar
    multiplication is double-and-add, and [multiply] returns its result
    normalised to [pz = 1]. *)

(** The complete projective addition and doubling formulas, over any
    carrier with a multiplication, an addition and a subtraction. *)
Section RCB.
Context {T : Type} (mul add sub : T -> T -> T) (a b3 : T).

Definition rcb_double (X1 Y1 Z1 : T) : T * T * T :=
  let t0 := mul X1 X1 in
  let t1 := mul Y1 Y1 in
  let t2 := mul Z1 Z1 in
  let t3 := mul X1 Y1 in
  let t3 := add t3 t3 in
  let Z3 := mul X1 Z1 in
  let Z3 := add Z3 Z3 in
  let X3 := mul a Z3 in
  let Y3 := mul b3 t2 in
  let Y3 := add X3 Y3 in
  let X3 := sub t1 Y3 in
  let Y3 := add t1 Y3 in
  let Y3 := mul X3 Y3 in
  let X3 := mul t3 X3 in
  let Z3 := mul b3 Z3 in
  let t2 := mul a t2 in
  let t3 := sub t0 t2 in
  let t3 := mul a t3 in
  let t3 := add t3 Z3 in
  let Z3 := add t0 t0 in
  let t0 := add Z3 t0 in
  let t0 := add t0 t2 in
  let t0 := mul t0 t3 in
  let Y3 := add Y3 t0 in
  let t2 := mul Y1 Z1 in
  let t2 := add t2 t2 in
  let t0 := mul t2 t3 in
  let X3 := sub X3 t0 in
  let Z3 := mul t2 t1 in
  let Z3 := add Z3 Z3 in
  let Z3 := add Z3 Z3 in
  (X3, Y3, Z3).

Definition rcb_add (X1 Y1 Z1 X2 Y2 Z2 : T) : T * T * T :=
  let t0 := mul X1 X2 in
  let t1 := mul Y1 Y2 in
  let t2 := mul Z1 Z2 in
  let t3 := add X1 Y1 in
  let t4 := add X2 Y2 in
  let t3 := mul t3 t4 in
  let t4 := add t0 t1 in
  let t3 := sub t3 t4 in
  let t4 := add X1 Z1 in
  let t5 := add X2 Z2 in
  let t4 := mul t4 t5 in
  let t5 := add t0 t2 in
  let t4 := sub t4 t5 in
  let t5 := add Y1 Z1 in
  let X3 := add Y2 Z2 in
  let t5 := mul t5 X3 in
  let X3 := add t1 t2 in
  let t5 := sub t5 X3 in
  let Z3 := mul a t4 in
  let X3 := mul b3 t2 in
  let Z3 := add X3 Z3 in
  let X3 := sub t1 Z3 in
  let Z3 := add t1 Z3 in
  let Y3 := mul X3 Z3 in
  let t1 := add t0 t0 in
  let t1 := add t1 t0 in
  let t2 := mul a t2 in
  let t4 := mul b3 t4 in
  let t1 := add t1 t2 in
  let t2 := sub t0 t2 in
  let t2 := mul a t2 in
  let t4 := add t4 t2 in
  let t0 := mul t1 t4 in
  let Y3 := add Y3 t0 in
  let t0 := mul t5 t4 in
  let X3 := mul t3 X3 in
  let X3 := sub X3 t0 in
  let t0 := mul t3 t1 in
  let Z3 := mul t5 Z3 in
  let Z3 := add Z3 t0 in
  (X3, Y3, Z3).

End RCB.

Module Point.

Record ProjPoint : Type := MkPoint { px : Z; py : Z; pz : Z }.

Definition CURVE_a : Z := 0.
Definition CURVE_b : Z := 7.
Definition Gx : Z :=
  55066263022277343669578718895168534326250603453777594175500187360389116729240.
Definition Gy : Z :=
  32670510020758816978083085130507043184471273380659243275938904335757337482424.

Definition BASE : ProjPoint := MkPoint Gx Gy 1.
Definition ZERO : ProjPoint := MkPoint 0 1 0.

Definition equals (p q : ProjPoint) : bool :=
  Fp.eql (FpOps.mul (px p) (pz q)) (FpOps.mul (px q) (pz p)) &&
  Fp.eql (FpOps.mul (py p) (pz q)) (FpOps.mul (py q) (pz p)).

Definition is0 (p : ProjPoint) : bool := equals p ZERO.

Definition negate (p : ProjPoint) : ProjPoint :=
  MkPoint (px p) (FpOps.neg (py p)) (pz p).

Definition double (p : ProjPoint) : ProjPoint :=
  let '(X3, Y3, Z3) :=
    rcb_double FpOps.mul FpOps.add FpOps.sub CURVE_a (FpOps.mul CURVE_b 3)
               (px p) (py p) (pz p) in
  MkPoint X3 Y3 Z3.

Definition add (p q : ProjPoint) : ProjPoint :=
  let '(X3, Y3, Z3) :=
    rcb_add FpOps.mul FpOps.add FpOps.sub CURVE_a (FpOps.mul CURVE_b 3)
            (px p) (py p) (pz p) (px q) (py q) (pz q) in
  MkPoint X3 Y3 Z3.

(** Affine coordinates; the point at infinity goes to (0, 0). *)
Definition toAffine (p : ProjPoint) : result (Z * Z) :=
  if is0 p then Ok (0, 0)
  else
    let? iz := FpOps.inv (pz p) in
    let ax := FpOps.mul (px p) iz in
    let ay := FpOps.mul (py p) iz in
    let zz := FpOps.mul (pz p) iz in
    if negb (Fp.eql zz 1) then Err PointNotOnCurve else Ok (ax, ay).

Definition fromAffine (xy : Z * Z) : ProjPoint :=
  let (x, y) := xy in
  if Fp.eql x 0 && Fp.eql y 0 then ZERO else MkPoint x y 1.

Definition hasEvenY (p : ProjPoint) : result bool :=
  let? xy := toAffine p in
  Ok (negb (FpOps.isOdd (snd xy))).

(** y^2 = x^3 + a x + b on the affine coordinates, which must be
    canonical field elements; the point at infinity is refused. *)
Definition assertValidity (p : ProjPoint) : result unit :=
  if is0 p then Err PointNotOnCurve
  else
    let? xy := toAffine p in
    let (x, y) := xy in
    if negb (Fp.isValid x) || negb (Fp.isValid y) then Err PointNotOnCurve
    else
      let left := Fp.sqr y in
      let x2 := Fp.sqr x in
      let x3 := FpOps.mul x2 x in
      let right := FpOps.add (FpOps.add x3 (FpOps.mul x CURVE_a)) CURVE_b in
      if negb (Fp.eql left right) then Err PointNotOnCurve else Ok tt.

(** The scalar validator: [0 < n < curve.n]. *)
Definition assertGE (n : Z) : result unit :=
  if (0 <? n) && (n <? secp256k1N) then Ok tt else Err InputRangeError.

Fixpoint pos_multiply (p : ProjPoint) (n : positive) : ProjPoint :=
  match n with
  | xH => p
  | xO n' => double (pos_multiply p n')
  | xI n' => add (double (pos_multiply p n')) p
  end.

Definition multiplyUnsafe (p : ProjPoint) (n : Z) : result ProjPoint :=
  if n =? 0 then Ok ZERO
  else
    let? _ := assertGE n in
    match n with
    | Zpos n' => Ok (pos_multiply p n')
    | _ => Err InputRangeError
    end.

Definition multiply (p : ProjPoint) (n : Z) : result ProjPoint :=
  let? _ := assertGE n in
  match n with
  | Zpos n' =>
      let q := pos_multiply p n' in
      let? xy := toAffine q in
      Ok (fromAffine xy)
  | _ => Err InputRangeError
  end.

(** [Point.fromPrivateKey] on a bigint: P = d.G, after the range check
    0 < d < n. *)
Definition fromPrivateKey (d : Z) : result ProjPoint := multiply BASE d.

(** [P.multiplyAndAddUnsafe(Q, a, b)] = a.P + b.Q, [undefined] for the
    point at infinity. *)
Definition multiplyAndAddUnsafe (p q : ProjPoint) (a b : Z) : result (option ProjPoint) :=
  let mul (r : ProjPoint) (k : Z) :=
    if (k =? 0) || (k =? 1) || negb (equals r BASE)
    then multiplyUnsafe r k else multiply r k in
  let? ap := mul p a in
  let? bq := mul q b in
  let sum := add ap bq in
  Ok (if is0 sum then None else Some sum).

(** [toRawBytes(true)]: the parity byte and the 32-byte x coordinate. *)
Definition toRawBytes (p : ProjPoint) : result bytes :=
  let? _ := assertValidity p in
  let? xy := toAffine p in
  let? even := hasEvenY p in
  Ok (concatBytes [[if even then x02 else x03]; numberToBytesBE (fst xy) 32]).

End Point.

Abbreviation ProjPoint := Point.ProjPoint.
Abbreviation MkPoint := Point.MkPoint.

(** ** The tag-prefix object and computations that touch it

    [TAGGED_HASH_PREFIXES] is a module-level object literal used as a map
    from tag to prefix.  Only [taggedHash] writes to it, so its own
    properties are byte strings; they are held in a [gmap].  Reading a key
    that is not an own property falls through to [Object.prototype], whose
    members are not [undefined]. *)

Inductive jsval : Type :=
  | JUndefined
  | JBytes (b : bytes)
  | JObject.

(** The property names every object literal inherits. *)
Definition object_prototype_keys : list string :=
  [ "constructor"; "hasOwnProperty"; "isPrototypeOf"; "propertyIsEnumerable";
    "toLocaleString"; "toString"; "valueOf"; "__proto__";
    "__defineGetter__"; "__defineSetter__"; "__lookupGetter__";
    "__lookupSetter__" ]%string.

Definition inherited (tag : string) : bool :=
  existsb (String.eqb tag) object_prototype_keys.

(** [TAGGED_HASH_PREFIXES[tag]]. *)
Definition get_property (prefixes : gmap string bytes) (tag : string) : jsval :=
  match prefixes !! tag with
  | Some b => JBytes b
  | None => if inherited tag then JObject else JUndefined
  end.

(** A computation over the tag-prefix object that may throw; the object
    keeps the writes made before the exception. *)
Definition M (A : Type) : Type := gmap string bytes -> result A * gmap string bytes.

Definition ret {A : Type} (a : A) : M A := fun s => (Ok a, s).
Definition throw {A : Type} (e : error) : M A := fun s => (Err e, s).
Definition lift {A : Type} (r : result A) : M A := fun s => (r, s).
Definition bind {A B : Type} (m : M A) (k : A -> M B) : M B :=
  fun s =>
    match m s with
    | (Ok a, s') => k a s'
    | (Err e, s') => (Err e, s')
    end.
Definition try_catch {A : Type} (m : M A) (handler : error -> M A) : M A :=
  fun s =>
    match m s with
    | (Ok a, s') => (Ok a, s')
    | (Err e, s') => handler e s'
    end.

Notation "'let!' x ':=' e 'in' k" := (bind e (fun x => k))
  (at level 10, x pattern, e at level 100, k at level 200).

(** ** Schnorr signatures (BIP-340) *)

Definition fe (x : Z) : bool := (_0n <? x) && (x <? secp256k1P).
Definition ge (x : Z) : bool := (_0n <? x) && (x <? secp256k1N).

Module TAGS.
Definition challenge : string := "BIP0340/challenge".
Definition aux : string := "BIP0340/aux".
Definition nonce : string := "BIP0340/nonce".
End TAGS.

(** [Uint8Array.from(tag, (c) => c.charCodeAt(0))] for a tag whose
    characters have codes below 256. *)
Definition tag_bytes (tag : string) : bytes := String.list_byte_of_string tag.

(** Modelled from the spec: byte-sequence concatenation is consumed from
    the external library and takes byte sequences.  This is
    [concatBytes(tagP, ...messages)] where [tagP] is whatever the property
    read returned; a value that is not a byte array is refused. *)
Definition concat_prefixed (tagP : jsval) (messages : list bytes) : result bytes :=
  match tagP with
  | JBytes b => Ok (concatBytes (b :: messages))
  | _ => Err NotByteArray
  end.

Definition taggedHash (tag : string) (messages : list bytes) : M bytes :=
  fun prefixes =>
    let tagP := get_property prefixes tag in
    let '(tagP, prefixes) :=
      match tagP with
      | JUndefined =>
          let tagH := sha256 (tag_bytes tag) in
          let tagP := concatBytes [tagH; tagH] in
          (JBytes tagP, <[tag := tagP]> prefixes)
      | _ => (tagP, prefixes)
      end in
    match concat_prefixed tagP messages with
    | Ok b => (Ok (sha256 b), prefixes)
    | Err e => (Err e, prefixes)
    end.

(** What the tagged hash is meant to compute:
    H(H(tag) || H(tag) || data...). *)
Definition tagged_hash_spec (tag : string) (messages : list bytes) : bytes :=
  sha256 (sha256 (tag_bytes tag) ++ sha256 (tag_bytes tag) ++ concat messages).

Definition pointToBytes (point : ProjPoint) : result bytes :=
  let? raw := Point.toRawBytes point in
  Ok (skipn 1 raw).

Definition modN (x : Z) : Z := mod_ x secp256k1N.

Definition GmulAdd (Q : ProjPoint) (a b : Z) : result (option ProjPoint) :=
  Point.multiplyAndAddUnsafe Point.BASE Q a b.

Definition hex32ToInt (key : bytes) : result Z :=
  let? b := ensureBytes key (Some 32%nat) in
  Ok (bytesToInt b).

(** [PrivKey = Hex | bigint]. *)
Inductive PrivKey : Type :=
  | PrivBytes (b : bytes)
  | PrivBigint (d : Z).

Record ExtPubKey : Type := MkExtPubKey {
  point : ProjPoint;
  scalar : Z;
  bytes_ : bytes
}.

Definition schnorrGetExtPubKey (priv : PrivKey) : result ExtPubKey :=
  let? d := match priv with
            | PrivBigint d => Ok d
            | PrivBytes b => hex32ToInt b
            end in
  let? point := Point.fromPrivateKey d in
  let? even := Point.hasEvenY point in
  let scalar := if even then d else modN (- d) in
  let? bytes := pointToBytes point in
  Ok (MkExtPubKey point scalar bytes).

Definition lift_x (x : Z) : result ProjPoint :=
  if negb (fe x) then Err BadPublicKeyX
  else
    let c := mod_ (x * x * x + 7) secp256k1P in
    let? y := sqrtMod c in
    let y := if negb (JS.rem y 2 =? 0) then mod_ (- y) secp256k1P else y in
    let p := MkPoint x y _1n in
    let? _ := Point.assertValidity p in
    Ok p.

Definition challenge (args : list bytes) : M Z :=
  let! h := taggedHash TAGS.challenge args in
  ret (modN (bytesToInt h)).

Definition schnorrGetPublicKey (privateKey : bytes) : result bytes :=
  let? ext := schnorrGetExtPubKey (PrivBytes privateKey) in
  Ok (bytes_ ext).

(** The body of [schnorrVerify]'s [try] block. *)
Definition schnorrVerify_try (signature message publicKey : bytes) : M bool :=
  let! pk := lift (hex32ToInt publicKey) in
  let! P := lift (lift_x pk) in
  let! sig := lift (ensureBytes signature (Some 64%nat)) in
  let r := bytesToInt (firstn 32 sig) in
  if negb (fe r) then ret false
  else
    let s := bytesToInt (firstn 32 (skipn 32 sig)) in
    if negb (ge s) then ret false
    else
      let! m := lift (ensureBytes message None) in
      let! Pb := lift (pointToBytes P) in
      let! e := challenge [numTo32b r; Pb; m] in
      let! R := lift (GmulAdd P s (modN (- e))) in
      match R with
      | None => ret false
      | Some R =>
          let! even := lift (Point.hasEvenY R) in
          let! Rxy := lift (Point.toAffine R) in
          if negb even || negb (fst Rxy =? r) then ret false else ret true
      end.

Definition schnorrVerify (signature message publicKey : bytes) : M bool :=
  try_catch (schnorrVerify_try signature message publicKey) (fun _ => ret false).

(** [auxRand] defaults to 32 random bytes in the source; here the caller
    always supplies it. *)
Definition schnorrSign (message : bytes) (privateKey : PrivKey) (auxRand : bytes) : M bytes :=
  let! m := lift (ensureBytes message None) in
  let! ext := lift (schnorrGetExtPubKey privateKey) in
  let px := bytes_ ext in
  let d := scalar ext in
  let! a := lift (ensureBytes auxRand (Some 32%nat)) in
  let! h := taggedHash TAGS.aux [a] in
  let t := numTo32b (Z.lxor d (bytesToInt h)) in
  let! rand := taggedHash TAGS.nonce [t; px; m] in
  let k_ := modN (bytesToInt rand) in
  if k_ =? _0n then throw NonceIsZero
  else
    let! extR := lift (schnorrGetExtPubKey (PrivBigint k_)) in
    let R := point extR in
    let rx := bytes_ extR in
    let k := scalar extR in
    let! e := challenge [rx; px; m] in
    let sig := numTo32b (Point.px R) ++ numTo32b (modN (k + e * d)) in
    let! ok := schnorrVerify sig m px in
    if negb ok then throw SignatureSelfCheckFailure else ret sig.


(** ** Evaluation support

    The three loops that dominate the cost of running the model (scalar
    multiplication, the Euclid loop of [invert] and the repeated squaring
    [pow2]) written over machine-word integers. *)

Module Fast.

Definition bP : bigZ := Eval vm_compute in BigZ.of_Z secp256k1P.

Definition mod_ (a b : bigZ) : bigZ :=
  let result := BigZ.rem a b in
  if BigZ.leb 0 result then result else BigZ.add b result.

Definition fadd (a b : bigZ) : bigZ := mod_ (BigZ.add a b) bP.
Definition fsub (a b : bigZ) : bigZ := mod_ (BigZ.sub a b) bP.
Definition fmul (a b : bigZ) : bigZ := mod_ (BigZ.mul a b) bP.

Definition point : Type := bigZ * bigZ * bigZ.

Definition double (p : point) : point :=
  let '(X1, Y1, Z1) := p in
  rcb_double fmul fadd fsub (BigZ.of_Z Point.CURVE_a)
             (fmul (BigZ.of_Z Point.CURVE_b) (BigZ.of_Z 3)) X1 Y1 Z1.

Definition add (p q : point) : point :=
  let '(X1, Y1, Z1) := p in
  let '(X2, Y2, Z2) := q in
  rcb_add fmul fadd fsub (BigZ.of_Z Point.CURVE_a)
          (fmul (BigZ.of_Z Point.CURVE_b) (BigZ.of_Z 3)) X1 Y1 Z1 X2 Y2 Z2.

Fixpoint pos_multiply (p : point) (n : positive) : point :=
  match n with
  | xH => p
  | xO n' => double (pos_multiply p n')
  | xI n' => add (double (pos_multiply p n')) p
  end.

Definition of_point (p : ProjPoint) : point :=
  (BigZ.of_Z (Point.px p), BigZ.of_Z (Point.py p), BigZ.of_Z (Point.pz p)).

Definition to_point (p : point) : ProjPoint :=
  let '(X, Y, Z) := p in MkPoint (BigZ.to_Z X) (BigZ.to_Z Y) (BigZ.to_Z Z).

Definition pow2 (x : bigZ) (power : Z) (modulo : bigZ) : bigZ :=
  Z.iter power (fun res => BigZ.rem (BigZ.mul res res) modulo) x.

Fixpoint invert_loop (fuel : nat) (a b x y u v : bigZ) : option (bigZ * bigZ) :=
  match fuel with
  | O => None
  | S fuel' =>
      if BigZ.eqb a 0 then Some (b, x)
      else
        let q := BigZ.quot b a in
        let r := BigZ.rem b a in
        let m := BigZ.sub x (BigZ.mul u q) in
        let n := BigZ.sub y (BigZ.mul v q) in
        invert_loop fuel' r a u v m n
  end.

Definition pos_multiply_Z (p : ProjPoint) (n : positive) : ProjPoint :=
  to_point (pos_multiply (of_point p) n).

Definition pow2_Z (x power modulo : Z) : Z :=
  BigZ.to_Z (pow2 (BigZ.of_Z x) power (BigZ.of_Z modulo)).

Definition invert_loop_Z (fuel : nat) (a b x y u v : Z) : option (Z * Z) :=
  match invert_loop fuel (BigZ.of_Z a) (BigZ.of_Z b) (BigZ.of_Z x)
                    (BigZ.of_Z y) (BigZ.of_Z u) (BigZ.of_Z v) with
  | Some (g, c) => Some (BigZ.to_Z g, BigZ.to_Z c)
  | None => None
  end.

End Fast.

(** ** Primality certificates *)

Definition cert_factor : Type := Z * Z * Z.
Definition cert_entry : Type := Z * list cert_factor.

Definition cert_F (fs : list cert_factor) : Z :=
  fold_right (fun '(q, e, _) acc => q ^ e * acc) 1 fs.

Section Checker.
Variable powmod : Z -> Z -> Z -> Z.

Definition check_factor (known : list Z) (N : Z) (f : cert_factor) : bool :=
  let '(q, e, a) := f in
  existsb (Z.eqb q) known && (1 <=? e) &&
  (powmod a (N - 1) N =? 1) &&
  (Z.gcd (powmod a ((N - 1) / q) N - 1) N =? 1).

Definition check_entry (known : list Z) (entry : cert_entry) : bool :=
  let '(N, fs) := entry in
  let F := cert_F fs in
  (1 <? N) && (0 <? F) && ((N - 1) mod F =? 0) && (N <? (F + 1) * (F + 1)) &&
  forallb (check_factor known N) fs.

Fixpoint check_chain (known : list Z) (chain : list cert_entry) : bool :=
  match chain with
  | [] => true
  | entry :: rest => check_entry known entry && check_chain (fst entry :: known) rest
  end.
End Checker.

Module FastPow.
Fixpoint pos_powmod (a : bigZ) (e : positive) (m : bigZ) : bigZ :=
  match e with
  | xH => BigZ.modulo a m
  | xO e' => let r := pos_powmod a e' m in BigZ.modulo (BigZ.mul r r) m
  | xI e' =>
      let r := pos_powmod a e' m in
      BigZ.modulo (BigZ.mul (BigZ.modulo (BigZ.mul r r) m) a) m
  end.
Definition powmod (a e m : Z) : Z :=
  match e with
  | Z0 => 1 mod m
  | Zpos e' => BigZ.to_Z (pos_powmod (BigZ.of_Z a) e' (BigZ.of_Z m))
  | Zneg _ => 0
  end.
End FastPow.


(** A Pocklington certificate for the field prime: each entry proves its
    number prime from the primes before it, down to 2. *)
Definition secp256k1P_certificate : list cert_entry :=
  [
  (3, [(2, 1, 2)]);
  (7, [(2, 1, 3); (3, 1, 2)]);
  (5, [(2, 2, 2)]);
  (13441, [(2, 7, 11); (3, 1, 2); (5, 1, 2); (7, 1, 2)]);
  (29, [(2, 2, 2); (7, 1, 2)]);
  (31, [(2, 1, 3); (3, 1, 3); (5, 1, 2)]);
  (11, [(2, 1, 2); (5, 1, 2)]);
  (13, [(2, 2, 2); (3, 1, 2)]);
  (7723, [(2, 1, 2); (3, 3, 3); (11, 1, 2); (13, 1, 2)]);
  (271, [(2, 1, 3); (3, 3, 2); (5, 1, 2)]);
  (1627, [(2, 1, 2); (3, 1, 3); (271, 1, 2)]);
  (41, [(2, 3, 3); (5, 1, 2)]);
  (83, [(2, 1, 2); (41, 1, 2)]);
  (2657, [(2, 5, 3); (83, 1, 2)]);
  (67, [(2, 1, 2); (3, 1, 2); (11, 1, 2)]);
  (4423, [(2, 1, 3); (3, 1, 3); (11, 1, 2); (67, 1, 2)]);
  (17, [(2, 4, 3)]);
  (103, [(2, 1, 3); (3, 1, 2); (17, 1, 2)]);
  (41201, [(2, 4, 3); (5, 2, 3); (103, 1, 2)]);
  (101, [(2, 2, 2); (5, 2, 2)]);
  (239, [(2, 1, 7); (7, 1, 2); (17, 1, 2)]);
  (96557, [(2, 2, 2); (101, 1, 2); (239, 1, 2)]);
  (255515944373312847190720520512484175977, [(2, 3, 3); (7, 2, 2); (11, 1, 2); (1627, 1, 2); (2657, 1, 2); (4423, 1, 2); (41201, 1, 2); (96557, 1, 2)]);
  (205115282021455665897114700593932402728804164701536103180137503955397371, [(2, 1, 2); (3, 1, 2); (5, 1, 5); (29, 2, 2); (31, 1, 2); (7723, 1, 2); (255515944373312847190720520512484175977, 1, 2)]);
  (115792089237316195423570985008687907853269984665640564039457584007908834671663, [(2, 1, 3); (3, 1, 2); (7, 1, 3); (13441, 1, 2); (205115282021455665897114700593932402728804164701536103180137503955397371, 1, 2)])
  ].


(** ** Concrete inputs

    The first published BIP-340 test vector (secret key 3, all-zero
    message and auxiliary randomness) and a 31-byte message signed with
    the secret key 6, whose public point has an odd y. *)

Module Vectors.

Definition seckey3 : bytes := numTo32b 3.
Definition zeros32 : bytes := repeat x00 32.
Definition signature0 : bytes :=
  numberToBytesBE
    0xE907831F80848D1069A5371B402410364BDF1C5F8307B0084C55F1CE2DCA821525F66A4A85EA8B71E482A74F382D2CE5EBEEE8FDB2172F477DF4900D310536C0
    64.

Definition seckey6 : bytes := numTo32b 6.
Definition pubkey6 : bytes :=
  numTo32b 0xfff97bd5755eeea420453a14355235d382f6472f8568a18b2f057a1460297556.
Definition message31 : bytes := repeat "*"%byte 31.
Definition aux_counting : bytes :=
  numTo32b 0x000102030405060708090a0b0c0d0e0f101112131415161718191a1b1c1d1e1f.
Definition signature31 : bytes :=
  numberToBytesBE
    0x3a2dbf7f7bb075e2b2086f4083dddbd6e13d45b7ad794a9f769f31c04c609dae484918a2a4b0df9462d21542c1d9251d0b227a32df5b2edffb88f51ae61e6ccf
    64.


(** 6.G, whose y is odd, and what [schnorrGetExtPubKey] returns for 6. *)
Definition point6 : ProjPoint :=
  MkPoint 0xfff97bd5755eeea420453a14355235d382f6472f8568a18b2f057a1460297556
          78735063515800386211891312544505775871260717697865196436804966483607426560663
          1.
Definition ext6 : ExtPubKey := MkExtPubKey point6 (secp256k1N - 6) pubkey6.

(** A scalar to split. *)
Definition scalar_k : Z :=
  0x1d2dc1c0e2a0ddc92e7620b8b2f2f1b8f2f4a3b6a0c9d8e7f6a5b4c3d2e1f001.

End Vectors.

(** ** Predicates used in the statements and proofs *)

(** [v] is the canonical residue of y^e in the field. *)
Definition power_of (y e v : Z) : Prop := 0 <= e /\ v = y ^ e mod secp256k1P.

(** The prefix the tag-prefix object is meant to hold for a tag. *)
Definition prefix_of (tag : string) : bytes :=
  sha256 (tag_bytes tag) ++ sha256 (tag_bytes tag).

(** Every own property of the tag-prefix object is the prefix of its
    key.  The empty object satisfies it and [taggedHash], the only writer,
    preserves it. *)
Definition cache_ok (prefixes : gmap string bytes) : Prop :=
  forall tag v, prefixes !! tag = Some v -> v = prefix_of tag.

(** What a property read followed by the lazy fill leaves as prefix of a
    tag: the stored bytes, or the freshly computed prefix. *)
Definition stored_prefix (prefixes : gmap string bytes) (tag : string) : bytes :=
  match prefixes !! tag with
  | Some v => v
  | None => prefix_of tag
  end.

Definition challenge_of (pre : bytes) (args : list bytes) : Z :=
  modN (bytesToInt (sha256 (concatBytes (pre :: args)))).

(** The outcome of [schnorrVerify]'s [try] block as a function of the
    prefix used for the challenge tag, without the store. *)
Definition verify_result (pre : bytes) (signature message publicKey : bytes) : result bool :=
  let? pk := hex32ToInt publicKey in
  let? P := lift_x pk in
  let? sig := ensureBytes signature (Some 64%nat) in
  let r := bytesToInt (firstn 32 sig) in
  if negb (fe r) then Ok false
  else
    let s := bytesToInt (firstn 32 (skipn 32 sig)) in
    if negb (ge s) then Ok false
    else
      let? m := ensureBytes message None in
      let? Pb := pointToBytes P in
      let e := challenge_of pre [numTo32b r; Pb; m] in
      let? R := GmulAdd P s (modN (- e)) in
      match R with
      | None => Ok false
      | Some R =>
          let? even := Point.hasEvenY R in
          let? Rxy := Point.toAffine R in
          if negb even || negb (fst Rxy =? r) then Ok false else Ok true
      end.

(** The failures the point arithmetic can report. *)
Definition point_error (e : error) : Prop :=
  e = InputRangeError \/ e = PointNotOnCurve.

(** The key as the caller passes it is well-formed: 32 bytes, or a
    bigint. *)
Definition key_well_formed (priv : PrivKey) : Prop :=
  match priv with
  | PrivBytes b => length b = 32%nat
  | PrivBigint _ => True
  end.

(** The scalar a private key stands for: the first step of
    [schnorrGetExtPubKey]. *)
Definition key_value (priv : PrivKey) : result Z :=
  match priv with
  | PrivBigint d => Ok d
  | PrivBytes b => hex32ToInt b
  end.

(** ** The group generated by the base point

    What is needed to show that every multiple d.G with 0 < d < n is a
    finite point of the curve: congruence modulo p, the group law read
    as polynomial identities modulo the curve equation, and the order
    of G. *)

(** Congruence modulo the field prime. *)
Definition eqp (a b : Z) : Prop := a mod secp256k1P = b mod secp256k1P.

(** *** Polynomials in the coordinates of a point, modulo the curve equation

    A polynomial is a list of terms sorted by monomial, with coefficients
    reduced modulo the field prime; a power of X above the second is
    rewritten with X^3 = Y^2 Z - 7 Z^3.  Coefficients are machine-word
    integers, as in the evaluation support above. *)

Definition mono : Type := N * N * N.
Definition poly : Type := list (bigZ * mono).

Definition mono_compare (m1 m2 : mono) : comparison :=
  match N.compare (fst (fst m1)) (fst (fst m2)) with
  | Eq => match N.compare (snd (fst m1)) (snd (fst m2)) with
          | Eq => N.compare (snd m1) (snd m2)
          | c => c
          end
  | c => c
  end.

Definition mono_mul (m1 m2 : mono) : mono :=
  (fst (fst m1) + fst (fst m2), snd (fst m1) + snd (fst m2), snd m1 + snd m2)%N.

Definition reduce (c : bigZ) : bigZ := BigZ.modulo c Fast.bP.

Fixpoint insert (c : bigZ) (m : mono) (q : poly) : poly :=
  match q with
  | [] => [(c, m)]
  | t :: q' =>
      match mono_compare m (snd t) with
      | Eq => (reduce (BigZ.add c (fst t)), m) :: q'
      | Lt => (c, m) :: q
      | Gt => t :: insert c m q'
      end
  end.

(** One step of X^3 = Y^2 Z - 7 Z^3: enough for a product of two
    polynomials whose degree in X is at most two. *)
Definition add_mono (c : bigZ) (m : mono) (q : poly) : poly :=
  let '(i, j, k) := m in
  if (3 <=? i)%N
  then insert c (i - 3, j + 2, k + 1)%N
              (insert (reduce (BigZ.mul (-7) c)) (i - 3, j, k + 3)%N q)
  else insert c m q.

Definition padd (q1 q2 : poly) : poly :=
  fold_right (fun (t : bigZ * mono) acc => add_mono (fst t) (snd t) acc) q2 q1.

Definition psub (q1 q2 : poly) : poly :=
  fold_right (fun (t : bigZ * mono) acc => add_mono (reduce (BigZ.opp (fst t))) (snd t) acc) q1 q2.

Definition pmul (q1 q2 : poly) : poly :=
  fold_right
    (fun (t1 : bigZ * mono) acc =>
       fold_right
         (fun (t2 : bigZ * mono) acc' =>
            add_mono (reduce (BigZ.mul (fst t1) (fst t2))) (mono_mul (snd t1) (snd t2)) acc')
         acc q2)
    [] q1.

Definition pconst (c : Z) : poly := [(BigZ.of_Z c, (0, 0, 0)%N)].
Definition pX : poly := [(1%bigZ, (1, 0, 0)%N)].
Definition pY : poly := [(1%bigZ, (0, 1, 0)%N)].
Definition pZ : poly := [(1%bigZ, (0, 0, 1)%N)].

Definition is_zero (q : poly) : bool :=
  forallb (fun (t : bigZ * mono) => BigZ.eqb (reduce (fst t)) 0) q.

Definition ev_mono (x y z : Z) (m : mono) : Z :=
  x ^ Z.of_N (fst (fst m)) * y ^ Z.of_N (snd (fst m)) * z ^ Z.of_N (snd m).

Definition ev (x y z : Z) (q : poly) : Z :=
  fold_right (fun (t : bigZ * mono) acc => BigZ.to_Z (fst t) * ev_mono x y z (snd t) + acc) 0 q.

(** *** The group law on polynomials and on plain integers *)

Definition ppoint : Type := poly * poly * poly.

Definition doubleP (P : ppoint) : ppoint :=
  rcb_double pmul padd psub (pconst 0) (pconst 21) (fst (fst P)) (snd (fst P)) (snd P).

Definition addP (P Q : ppoint) : ppoint :=
  rcb_add pmul padd psub (pconst 0) (pconst 21)
          (fst (fst P)) (snd (fst P)) (snd P) (fst (fst Q)) (snd (fst Q)) (snd Q).

(** The generic point (X : Y : Z) and the base point. *)
Definition varP : ppoint := (pX, pY, pZ).
Definition baseP : ppoint := (pconst Point.Gx, pconst Point.Gy, pconst 1).

Definition pcube (q : poly) : poly := pmul q (pmul q q).

(** Y^2 Z - X^3 - 7 Z^3 on a polynomial point. *)
Definition curveP (P : ppoint) : poly :=
  psub (pmul (pmul (snd (fst P)) (snd (fst P))) (snd P))
       (padd (pcube (fst (fst P))) (pmul (pconst 7) (pcube (snd P)))).

(** The first and third coordinates of two polynomial points cross-multiplied
    with the second. *)
Definition crossP (P Q : ppoint) : poly * poly :=
  (psub (pmul (fst (fst P)) (snd (fst Q))) (pmul (fst (fst Q)) (snd (fst P))),
   psub (pmul (snd P) (snd (fst Q))) (pmul (snd Q) (snd (fst P)))).

(** The chord from the generic point B to -G: B - G has the affine
    coordinates NX / (D^2 Z) and NY / (D^3 Z). *)
Definition chordD : poly := psub pX (pmul (pconst Point.Gx) pZ).
Definition chordS : poly := padd pY (pmul (pconst Point.Gy) pZ).
Definition chordNX : poly :=
  psub (pmul (pmul chordS chordS) pZ)
       (pmul (padd pX (pmul (pconst Point.Gx) pZ)) (pmul chordD chordD)).
Definition chordNY : poly :=
  psub (psub (pmul chordS (pmul pX (pmul chordD chordD))) (pmul chordS chordNX))
       (pmul pY (pcube chordD)).

Definition doubleZ (P : ProjPoint) : ProjPoint :=
  let '(X3, Y3, Z3) :=
    rcb_double Z.mul Z.add Z.sub 0 21 (Point.px P) (Point.py P) (Point.pz P) in
  MkPoint X3 Y3 Z3.

Definition addZ (P Q : ProjPoint) : ProjPoint :=
  let '(X3, Y3, Z3) :=
    rcb_add Z.mul Z.add Z.sub 0 21 (Point.px P) (Point.py P) (Point.pz P)
            (Point.px Q) (Point.py Q) (Point.pz Q) in
  MkPoint X3 Y3 Z3.

Definition scale (l : Z) (P : ProjPoint) : ProjPoint :=
  MkPoint (l * Point.px P) (l * Point.py P) (l * Point.pz P).

(** Coordinate-wise congruence, the curve equation, and equality of
    projective points. *)
Definition peq (P Q : ProjPoint) : Prop :=
  eqp (Point.px P) (Point.px Q) /\ eqp (Point.py P) (Point.py Q) /\
  eqp (Point.pz P) (Point.pz Q).

Definition on_curve (P : ProjPoint) : Prop :=
  eqp (Point.px P * Point.px P * Point.px P)
      (Point.py P * Point.py P * Point.pz P - 7 * (Point.pz P * Point.pz P * Point.pz P)).

Definition valid (P : ProjPoint) : Prop :=
  on_curve P /\ ~ (eqp (Point.px P) 0 /\ eqp (Point.py P) 0 /\ eqp (Point.pz P) 0).

Definition proj_eq (P Q : ProjPoint) : Prop :=
  exists l m, ~ eqp l 0 /\ ~ eqp m 0 /\ peq (scale l P) (scale m Q).

(** A polynomial point evaluates to a point. *)
Definition evP (B : ProjPoint) (P : ppoint) (Q : ProjPoint) : Prop :=
  eqp (ev (Point.px B) (Point.py B) (Point.pz B) (fst (fst P))) (Point.px Q) /\
  eqp (ev (Point.px B) (Point.py B) (Point.pz B) (snd (fst P))) (Point.py Q) /\
  eqp (ev (Point.px B) (Point.py B) (Point.pz B) (snd P)) (Point.pz Q).

(** A Pocklington certificate for the group order. *)
Definition secp256k1N_certificate : list cert_entry :=
  [
  (3, [(2, 1, 2)]);
  (37, [(2, 2, 2); (3, 2, 2)]);
  (149, [(2, 2, 2); (37, 1, 2)]);
  (5, [(2, 2, 2)]);
  (7, [(2, 1, 3); (3, 1, 2)]);
  (631, [(2, 1, 3); (3, 2, 2); (5, 1, 2); (7, 1, 3)]);
  (109, [(2, 2, 2); (3, 3, 3)]);
  (73, [(2, 3, 5); (3, 2, 2)]);
  (293, [(2, 2, 2); (73, 1, 2)]);
  (13, [(2, 2, 2); (3, 1, 2)]);
  (2731, [(2, 1, 2); (3, 1, 3); (5, 1, 3); (7, 1, 3); (13, 1, 2)]);
  (305873, [(2, 4, 3); (7, 1, 3); (2731, 1, 2)]);
  (11, [(2, 1, 2); (5, 1, 2)]);
  (23, [(2, 1, 5); (11, 1, 2)]);
  (461, [(2, 2, 2); (5, 1, 2); (23, 1, 2)]);
  (29, [(2, 2, 2); (7, 1, 2)]);
  (17, [(2, 4, 3)]);
  (1871, [(2, 1, 7); (5, 1, 2); (11, 1, 2); (17, 1, 2)]);
  (1627771, [(2, 1, 2); (3, 1, 3); (5, 1, 2); (29, 1, 2); (1871, 1, 2)]);
  (297159362677, [(2, 2, 2); (3, 2, 2); (11, 1, 2); (461, 1, 2); (1627771, 1, 2)]);
  (29047611873442575647497758179, [(2, 1, 2); (293, 1, 2); (305873, 1, 2); (297159362677, 1, 2)]);
  (341948486974166000522343609283189, [(2, 2, 2); (3, 3, 2); (109, 1, 2); (29047611873442575647497758179, 1, 2)]);
  (115792089237316195423570985008687907852837564279074904382605163141518161494337, [(2, 6, 5); (3, 1, 2); (149, 1, 2); (631, 1, 2); (341948486974166000522343609283189, 1, 2)])
  ].

(** The order as a positive number, and the multiples of the base
    point as double-and-add computes them. *)
Definition orderN : positive := Z.to_pos secp256k1N.
Definition mulG (k : positive) : ProjPoint := Point.pos_multiply Point.BASE k.

(** * Properties *)

(** ** The machine-word loops compute what the model's loops compute *)

Lemma mod_eq_modulo (a b : Z) : 0 < b -> mod_ a b = a mod b.
Proof.
  intros Hb. unfold mod_, JS.rem.
  pose proof (Z.quot_rem a b ltac:(lia)) as Hqr.
  destruct (Z_le_gt_dec 0 a) as [Ha | Ha].
  - pose proof (Z.rem_bound_pos a b Ha Hb) as Hr.
    destruct (Z.leb_spec 0 (Z.rem a b)); [|lia].
    apply (Z.mod_unique_pos _ _ (a ÷ b)); lia.
  - assert (Hr : - b < Z.rem a b <= 0).
    { pose proof (Z.rem_bound_pos (- a) b ltac:(lia) Hb) as Hr.
      rewrite Z.rem_opp_l' in Hr. lia. }
    destruct (Z.leb_spec 0 (Z.rem a b)).
    + apply (Z.mod_unique_pos _ _ (a ÷ b)); lia.
    + apply (Z.mod_unique_pos _ _ (a ÷ b - 1)); lia.
Qed.

Section FastSpec.

#[local] Notation "[ x ]" := (BigZ.to_Z x).

Lemma fast_mod_spec (a b : bigZ) : [Fast.mod_ a b] = mod_ [a] [b].
Proof.
  unfold Fast.mod_, mod_, JS.rem.
  rewrite BigZ.spec_leb, BigZ.spec_rem. change [0%bigZ] with 0.
  destruct (0 <=? Z.rem [a] [b]); [apply BigZ.spec_rem|].
  now rewrite BigZ.spec_add, BigZ.spec_rem.
Qed.

Lemma fast_bP : [Fast.bP] = secp256k1P.
Proof. reflexivity. Qed.

Lemma fast_fmul_spec (a b : bigZ) : [Fast.fmul a b] = FpOps.mul [a] [b].
Proof. unfold Fast.fmul, FpOps.mul. now rewrite fast_mod_spec, BigZ.spec_mul, fast_bP. Qed.

Lemma fast_fadd_spec (a b : bigZ) : [Fast.fadd a b] = FpOps.add [a] [b].
Proof. unfold Fast.fadd, FpOps.add. now rewrite fast_mod_spec, BigZ.spec_add, fast_bP. Qed.

Lemma fast_fsub_spec (a b : bigZ) : [Fast.fsub a b] = FpOps.sub [a] [b].
Proof. unfold Fast.fsub, FpOps.sub. now rewrite fast_mod_spec, BigZ.spec_sub, fast_bP. Qed.

Lemma fast_double_spec (p : Fast.point) :
  Fast.to_point (Fast.double p) = Point.double (Fast.to_point p).
Proof.
  destruct p as [[X Y] Z].
  unfold Fast.double, Point.double, Fast.to_point, rcb_double. cbn [Point.px Point.py Point.pz].
  repeat first [rewrite fast_fmul_spec | rewrite fast_fadd_spec
               | rewrite fast_fsub_spec | rewrite BigZ.spec_of_Z].
  reflexivity.
Qed.

Lemma fast_add_spec (p q : Fast.point) :
  Fast.to_point (Fast.add p q) = Point.add (Fast.to_point p) (Fast.to_point q).
Proof.
  destruct p as [[X1 Y1] Z1], q as [[X2 Y2] Z2].
  unfold Fast.add, Point.add, Fast.to_point, rcb_add. cbn [Point.px Point.py Point.pz].
  repeat first [rewrite fast_fmul_spec | rewrite fast_fadd_spec
               | rewrite fast_fsub_spec | rewrite BigZ.spec_of_Z].
  reflexivity.
Qed.

Lemma fast_pos_multiply_spec (p : Fast.point) (n : positive) :
  Fast.to_point (Fast.pos_multiply p n) = Point.pos_multiply (Fast.to_point p) n.
Proof.
  induction n as [n IH | n IH |]; cbn [Fast.pos_multiply Point.pos_multiply].
  - now rewrite fast_add_spec, fast_double_spec, IH.
  - now rewrite fast_double_spec, IH.
  - reflexivity.
Qed.

Lemma fast_to_of_point (p : ProjPoint) : Fast.to_point (Fast.of_point p) = p.
Proof. destruct p. unfold Fast.to_point, Fast.of_point. cbn. now rewrite !BigZ.spec_of_Z. Qed.

Lemma fast_pow2_spec (x : bigZ) (power : Z) (modulo : bigZ) :
  [Fast.pow2 x power modulo] = pow2 [x] power [modulo].
Proof.
  unfold Fast.pow2, pow2. destruct power as [| n | n]; try reflexivity.
  cbn [Z.iter]. revert x.
  induction n as [n IH | n IH |]; intros x; cbn [Pos.iter].
  - unfold JS.rem. rewrite BigZ.spec_rem, BigZ.spec_mul. now rewrite !IH.
  - now rewrite !IH.
  - unfold JS.rem. now rewrite BigZ.spec_rem, BigZ.spec_mul.
Qed.

Lemma fast_invert_loop_spec (fuel : nat) (a b x y u v : bigZ) :
  match Fast.invert_loop fuel a b x y u v with
  | Some (g, c) => Some ([g], [c])
  | None => None
  end = invert_loop fuel [a] [b] [x] [y] [u] [v].
Proof.
  revert a b x y u v. induction fuel as [| fuel IH]; intros; cbn [Fast.invert_loop invert_loop].
  - reflexivity.
  - rewrite BigZ.spec_eqb. change [0%bigZ] with 0.
    destruct ([a] =? 0); [reflexivity|].
    rewrite IH. unfold JS.div, JS.rem.
    now rewrite !BigZ.spec_sub, !BigZ.spec_mul, BigZ.spec_quot, BigZ.spec_rem.
Qed.

End FastSpec.

Lemma pos_multiply_fast : Point.pos_multiply = Fast.pos_multiply_Z.
Proof.
  extensionality p; extensionality n. unfold Fast.pos_multiply_Z.
  now rewrite fast_pos_multiply_spec, fast_to_of_point.
Qed.

Lemma pow2_fast : pow2 = Fast.pow2_Z.
Proof.
  extensionality x; extensionality power; extensionality modulo. unfold Fast.pow2_Z.
  now rewrite fast_pow2_spec, !BigZ.spec_of_Z.
Qed.

Lemma invert_loop_fast : invert_loop = Fast.invert_loop_Z.
Proof.
  extensionality fuel; extensionality a; extensionality b; extensionality x.
  extensionality y; extensionality u; extensionality v. unfold Fast.invert_loop_Z.
  now rewrite fast_invert_loop_spec, !BigZ.spec_of_Z.
Qed.

(** Expose the three loops in a goal and replace them by their
    machine-word versions, ready for [vm_compute]. *)
Ltac with_fast_loops :=
  cbv delta
    [schnorrSign schnorrVerify schnorrVerify_try schnorrGetPublicKey
     schnorrGetExtPubKey lift_x challenge GmulAdd pointToBytes hex32ToInt
     sqrtMod invert FpOps.inv
     Point.toAffine Point.hasEvenY Point.assertValidity
     Point.multiplyUnsafe Point.multiply Point.fromPrivateKey
     Point.multiplyAndAddUnsafe Point.toRawBytes];
  rewrite ?pos_multiply_fast, ?pow2_fast, ?invert_loop_fast.

(** ** splitScalar *)

Section SplitScalar.

#[local] Abbreviation n := secp256k1N.

(** The two basis vectors are lattice vectors for lambda, and span a
    lattice of determinant n. *)
Lemma basis_determinant : Endo.a1 * Endo.b2 - Endo.a2 * Endo.b1 = n.
Proof. reflexivity. Qed.

Lemma basis_vector_1 : (Endo.a1 + Endo.lambda * Endo.b1) mod n = 0.
Proof. reflexivity. Qed.

Lemma basis_vector_2 : (Endo.a2 + Endo.lambda * Endo.b2) mod n = 0.
Proof. reflexivity. Qed.

Lemma lambda_cube_root :
  (Endo.lambda * Endo.lambda * Endo.lambda) mod n = 1 /\
  (Endo.beta * Endo.beta * Endo.beta) mod secp256k1P = 1.
Proof. split; reflexivity. Qed.

(** [divNearest a n] is a / n rounded to the nearest integer, for a >= 0. *)
Lemma divNearest_spec (a : Z) :
  0 <= a ->
  exists r, a + (n - 1) / 2 = n * divNearest a n + r /\ 0 <= r < n.
Proof.
  intros Ha. unfold divNearest, JS.div.
  replace (n ÷ _2n) with ((n - 1) / 2) by reflexivity.
  assert (Hh : 0 <= (n - 1) / 2) by (vm_compute; discriminate).
  rewrite Z.quot_div_nonneg by (try lia; reflexivity).
  exists ((a + (n - 1) / 2) mod n). split.
  - apply Z.div_mod. discriminate.
  - apply Z.mod_pos_bound. reflexivity.
Qed.

(** The Babai remainder before reduction modulo n. *)
Lemma babai_bounds (k : Z) :
  0 <= k < n ->
  let c1 := divNearest (Endo.b2 * k) n in
  let c2 := divNearest (- Endo.b1 * k) n in
  - Endo.POW_2_128 < k - c1 * Endo.a1 - c2 * Endo.a2 < Endo.POW_2_128 /\
  - Endo.POW_2_128 < - c1 * Endo.b1 - c2 * Endo.b2 < Endo.POW_2_128.
Proof.
  intros Hk c1 c2.
  destruct (divNearest_spec (Endo.b2 * k)) as (r1 & E1 & R1).
  { unfold Endo.b2, Endo.a1. lia. }
  destruct (divNearest_spec (- Endo.b1 * k)) as (r2 & E2 & R2).
  { unfold Endo.b1, _1n. lia. }
  fold c1 in E1. fold c2 in E2. clearbody c1 c2.
  unfold Endo.b2, Endo.b1, Endo.a1, Endo.a2, _1n, Endo.POW_2_128 in *.
  change ((n - 1) / 2) with
    57896044618658097711785492504343953926418782139537452191302581570759080747168 in *.
  unfold secp256k1N in *.
  lia.
Qed.

Lemma sign_adjust (K : Z) :
  - Endo.POW_2_128 < K < Endo.POW_2_128 ->
  let k := mod_ K n in
  let neg := Endo.POW_2_128 <? k in
  let k' := if neg then n - k else k in
  signed neg k' = K /\ 0 <= k' < Endo.POW_2_128.
Proof.
  intros HK. cbv zeta. rewrite mod_eq_modulo by reflexivity.
  unfold Endo.POW_2_128 in *.
  destruct (Z_le_gt_dec 0 K) as [Hpos | Hneg].
  - rewrite Z.mod_small by (unfold secp256k1N; lia).
    destruct (Z.ltb_spec 0x100000000000000000000000000000000 K); [lia|].
    cbn [signed]. lia.
  - replace (K mod n) with (K + n).
    2:{ apply (Z.mod_unique_pos _ _ (-1)); unfold secp256k1N; lia. }
    destruct (Z.ltb_spec 0x100000000000000000000000000000000 (K + n)) as [_ | H];
      [|unfold secp256k1N in H; lia].
    cbn [signed]. lia.
Qed.

(** What [splitScalar] returns on a reduced scalar. *)
Lemma splitScalar_correct (k : Z) :
  0 <= k < n ->
  exists s,
    splitScalar k = Ok s /\
    (signed (k1neg s) (k1 s) + Endo.lambda * signed (k2neg s) (k2 s)) mod n = k mod n /\
    0 <= k1 s < Endo.POW_2_128 /\ 0 <= k2 s < Endo.POW_2_128.
Proof.
  intros Hk. destruct (babai_bounds k Hk) as [B1 B2].
  pose proof (sign_adjust _ B1) as (S1 & R1).
  pose proof (sign_adjust _ B2) as (S2 & R2).
  unfold splitScalar.
  set (c1 := divNearest (Endo.b2 * k) n) in *.
  set (c2 := divNearest (- Endo.b1 * k) n) in *.
  set (K1 := mod_ (k - c1 * Endo.a1 - c2 * Endo.a2) n) in *.
  set (K2 := mod_ (- c1 * Endo.b1 - c2 * Endo.b2) n) in *.
  cbv zeta.
  set (r1 := if Endo.POW_2_128 <? K1 then n - K1 else K1) in *.
  set (r2 := if Endo.POW_2_128 <? K2 then n - K2 else K2) in *.
  destruct (Z.ltb_spec Endo.POW_2_128 r1); [lia|].
  destruct (Z.ltb_spec Endo.POW_2_128 r2); [lia|].
  cbn [orb]. eexists. split; [reflexivity|]. cbn [k1neg k1 k2neg k2].
  split; [|split; assumption].
  rewrite S1, S2.
  pose proof basis_vector_1 as V1. pose proof basis_vector_2 as V2.
  apply Z.mod_divide in V1; [|discriminate]. apply Z.mod_divide in V2; [|discriminate].
  destruct V1 as [m1 V1], V2 as [m2 V2].
  replace (k - c1 * Endo.a1 - c2 * Endo.a2 + Endo.lambda * (- c1 * Endo.b1 - c2 * Endo.b2))
    with (k + (- c1 * m1 - c2 * m2) * n).
  - apply Z_mod_plus_full.
  - assert (E1 : c1 * (Endo.a1 + Endo.lambda * Endo.b1) = c1 * (m1 * n)) by now rewrite V1.
    assert (E2 : c2 * (Endo.a2 + Endo.lambda * Endo.b2) = c2 * (m2 * n)) by now rewrite V2.
    lia.
Qed.

End SplitScalar.

(** ** Primality of the field modulus *)


Lemma pos_powmod_spec (a : bigZ) (e : positive) (m : bigZ) :
  BigZ.to_Z (FastPow.pos_powmod a e m) = BigZ.to_Z a ^ Z.pos e mod BigZ.to_Z m.
Proof.
  induction e as [e IH | e IH |]; cbn [FastPow.pos_powmod].
  - rewrite !BigZ.spec_modulo, !BigZ.spec_mul, BigZ.spec_modulo, BigZ.spec_mul, IH.
    rewrite Pos2Z.inj_xI.
    replace (2 * Z.pos e + 1) with (Z.pos e + Z.pos e + 1) by lia.
    rewrite !Z.pow_add_r, Z.pow_1_r by lia.
    set (A := BigZ.to_Z a ^ Z.pos e).
    now rewrite <- (Zmult_mod_idemp_l (A * A)), (Zmult_mod A A).
  - rewrite BigZ.spec_modulo, BigZ.spec_mul, IH.
    rewrite Pos2Z.inj_xO.
    replace (2 * Z.pos e) with (Z.pos e + Z.pos e) by lia.
    rewrite Z.pow_add_r by lia. now rewrite <- Zmult_mod.
  - now rewrite BigZ.spec_modulo, Z.pow_1_r.
Qed.

Lemma fast_powmod_spec (a e m : Z) : 0 <= e -> FastPow.powmod a e m = a ^ e mod m.
Proof.
  intros He. destruct e as [| e | e]; [reflexivity | | lia].
  unfold FastPow.powmod. now rewrite pos_powmod_spec, !BigZ.spec_of_Z.
Qed.

Section Pocklington.

Lemma pow_mod_1_mul (a x k r : Z) :
  0 <= x -> 0 <= k -> a ^ x mod r = 1 -> a ^ (x * k) mod r = 1.
Proof.
  intros Hx Hk H. rewrite Z.pow_mul_r by assumption.
  rewrite <- Z.mod_pow_l, H, Z.pow_1_l by assumption.
  destruct (Z.eq_dec r 1) as [-> | Hr].
  - rewrite Z.mod_1_r in H. discriminate.
  - destruct (Z.eq_dec r 0) as [-> | Hr0]; [now rewrite Zmod_0_r|].
    destruct (Z_lt_le_dec r 0).
    + pose proof (Z.mod_neg_bound (a ^ x) r ltac:(lia)). lia.
    + apply Z.mod_1_l. lia.
Qed.

(** The exponents that send [a] to 1 modulo [r] are closed under gcd. *)
Lemma pow_mod_1_gcd (a r : Z) (y : Z) :
  0 <= y -> forall x, 0 <= x ->
  a ^ x mod r = 1 -> a ^ y mod r = 1 -> a ^ Z.gcd x y mod r = 1.
Proof.
  intros Hy. pattern y. apply Z_lt_induction; [|assumption]. clear y Hy.
  intros y IH x Hx Hax Hay.
  destruct (Z.eq_dec y 0) as [-> | Hy0].
  { now rewrite Z.gcd_0_r, Z.abs_eq. }
  assert (Hy : 0 < y).
  { destruct (Z_lt_le_dec y 0); [|lia]. rewrite Z.pow_neg_r in Hay by assumption.
    rewrite Z.mod_0_l in Hay; [discriminate|]. intros ->. rewrite Zmod_0_r in Hax.
    rewrite Zmod_0_r in Hay. discriminate. }
  pose proof (Z.mod_pos_bound x y Hy) as Hb.
  rewrite Z.gcd_comm, <- (Z.gcd_mod x y), Z.gcd_comm by assumption.
  apply IH; [lia | lia | assumption |].
  pose proof (Z.div_mod x y Hy0) as E.
  assert (Hq : 0 <= x / y) by (apply Z.div_pos; lia).
  rewrite E in Hax. rewrite Z.pow_add_r in Hax by (try lia; nia).
  rewrite <- Zmult_mod_idemp_l in Hax.
  rewrite (pow_mod_1_mul a y (x / y) r) in Hax by (assumption || lia).
  now rewrite Z.mul_1_l in Hax.
Qed.

Lemma prime_divisor_exists (n : Z) : 1 < n -> exists p, Z.prime p /\ (p | n).
Proof.
  intros Hn. assert (H0 : 0 <= n) by lia. revert Hn. pattern n.
  apply Z_lt_induction; [|assumption]. clear n H0.
  intros n IH Hn.
  destruct (prime_dec n) as [Hp | Hnp].
  - exists n. split; [now apply prime_alt | apply Z.divide_refl].
  - destruct (not_prime_divide n Hn Hnp) as (d & Hd & Hdn).
    destruct (IH d ltac:(lia) ltac:(lia)) as (p & Hp & Hpd).
    exists p. split; [assumption | now apply Z.divide_trans with d].
Qed.

Variables N F : Z.
Hypothesis HN : 1 < N.
Hypothesis HF : 0 < F.
Hypothesis HFN : (F | N - 1).
Hypothesis Hwit : forall q, Z.prime q -> (q | F) ->
  exists a, a ^ (N - 1) mod N = 1 /\ Z.gcd (a ^ ((N - 1) / q) mod N - 1) N = 1.

Lemma mod_1_of_divisor (b r : Z) : 1 < r -> (r | N) -> b mod N = 1 -> b mod r = 1.
Proof.
  intros Hr [c Hc] Hb.
  pose proof (Z.div_mod b N ltac:(lia)) as E. rewrite Hb in E.
  rewrite E, Hc. replace (c * r * (b / (c * r)) + 1) with (1 + (c * (b / (c * r))) * r) by lia.
  rewrite Z_mod_plus_full. apply Z.mod_1_l. assumption.
Qed.

(** Every prime divisor of N is 1 modulo F. *)
Lemma pocklington_divisor (r : Z) : Z.prime r -> (r | N) -> (F | r - 1).
Proof.
  intros Hr HrN. pose proof (Z.prime_ge_2 r Hr) as Hr2.
  set (m := N - 1) in *. set (g := Z.gcd m (r - 1)).
  assert (Hg0 : 0 < g).
  { pose proof (Z.gcd_nonneg m (r - 1)). fold g in H.
    destruct (Z.eq_dec g 0) as [E | E]; [|lia].
    apply Z.gcd_eq_0_l in E. lia. }
  destruct (Z.gcd_divide_l m (r - 1)) as [t Ht]. fold g in Ht.
  assert (Ht0 : 0 < t) by nia.
  assert (Hcop : Z.gcd F t = 1).
  { pose proof (Z.gcd_nonneg F t) as Hd0.
    destruct (Z.eq_dec (Z.gcd F t) 1) as [|Hd1]; [assumption|exfalso].
    assert (Hd : 1 < Z.gcd F t).
    { destruct (Z.eq_dec (Z.gcd F t) 0) as [E | E]; [apply Z.gcd_eq_0_l in E|]; lia. }
    destruct (prime_divisor_exists _ Hd) as (q & Hq & Hqd).
    assert (HqF : (q | F)) by (eapply Z.divide_trans; [exact Hqd | apply Z.gcd_divide_l]).
    assert (Hqt : (q | t)) by (eapply Z.divide_trans; [exact Hqd | apply Z.gcd_divide_r]).
    pose proof (Z.prime_ge_2 q Hq) as Hq2.
    destruct (Hwit q Hq HqF) as (a & Ha1 & Ha2).
    assert (Har : a ^ m mod r = 1) by (apply mod_1_of_divisor; [lia | assumption | assumption]).
    assert (Hanz : a mod r <> 0).
    { intros E. rewrite <- Z.mod_pow_l, E, Z.pow_0_l in Har by lia.
      rewrite Z.mod_0_l in Har by lia. discriminate. }
    pose proof (ZmodInv.Z.fermat_nz r a Hr Hanz) as Hf.
    assert (Hag : a ^ g mod r = 1) by (apply pow_mod_1_gcd; (lia || assumption)).
    destruct Hqt as [t' Ht'].
    assert (Hmq : m / q = g * t').
    { rewrite Ht, Ht'. replace (t' * q * g) with (g * t' * q) by lia.
      apply Z.div_mul. lia. }
    assert (Ht'0 : 0 <= t') by nia.
    assert (Hax : a ^ (m / q) mod r = 1).
    { rewrite Hmq. apply pow_mod_1_mul; (lia || assumption). }
    assert (Hdiv : (r | a ^ (m / q) mod N - 1)).
    { destruct HrN as [c Hc].
      pose proof (Z.div_mod (a ^ (m / q)) N ltac:(lia)) as E.
      pose proof (Z.div_mod (a ^ (m / q)) r ltac:(lia)) as E'. rewrite Hax in E'.
      exists (a ^ (m / q) / r - c * (a ^ (m / q) / N)). nia. }
    assert (Hr1 : (r | 1)).
    { rewrite <- Ha2. apply Z.gcd_greatest; assumption. }
    apply Z.divide_1_r_nonneg in Hr1; lia. }
  assert (HFg : (F | g)).
  { apply (Z.gauss F t g); [|assumption].
    destruct HFN as [c Hc]. exists c. lia. }
  eapply Z.divide_trans; [exact HFg | apply Z.gcd_divide_r].
Qed.

Hypothesis Hsize : N < (F + 1) * (F + 1).

Theorem pocklington : Z.prime N.
Proof.
  apply prime_alt. destruct (prime_dec N) as [Hp | Hnp]; [assumption | exfalso].
  destruct (not_prime_divide N HN Hnp) as (d & Hd & [d' Hd']).
  assert (Hd'1 : 1 < d') by nia.
  destruct (prime_divisor_exists d ltac:(lia)) as (r & Hr & Hrd).
  destruct (prime_divisor_exists d' Hd'1) as (r' & Hr' & Hrd').
  pose proof (Z.prime_ge_2 r Hr). pose proof (Z.prime_ge_2 r' Hr').
  assert (HrN : (r | N)) by (rewrite Hd'; now apply Z.divide_mul_r).
  assert (Hr'N : (r' | N)) by (rewrite Hd'; now apply Z.divide_mul_l).
  pose proof (Z.divide_pos_le F (r - 1) ltac:(lia) (pocklington_divisor r Hr HrN)).
  pose proof (Z.divide_pos_le F (r' - 1) ltac:(lia) (pocklington_divisor r' Hr' Hr'N)).
  pose proof (Z.divide_pos_le r d ltac:(lia) Hrd).
  pose proof (Z.divide_pos_le r' d' ltac:(lia) Hrd').
  nia.
Qed.

End Pocklington.

Section CheckerSound.
Variable powmod : Z -> Z -> Z -> Z.
Hypothesis powmod_spec : forall a e m, 0 <= e -> powmod a e m = a ^ e mod m.

Lemma cert_F_prime_divisor (known : list Z) (N : Z) (fs : list cert_factor) (s : Z) :
  Forall Z.prime known ->
  forallb (check_factor powmod known N) fs = true ->
  Z.prime s -> (s | cert_F fs) ->
  exists e a, In (s, e, a) fs.
Proof.
  intros Hknown. induction fs as [| [[q e] a] fs IH]; cbn [forallb cert_F fold_right].
  - intros _ Hs Hd. apply Z.divide_1_r_nonneg in Hd; pose proof (Z.prime_ge_2 s Hs); lia.
  - intros Hc Hs Hd. apply andb_true_iff in Hc as [Hc Hcs].
    apply Z.divide_prime_mul in Hd; [|assumption]. destruct Hd as [Hd | Hd].
    + unfold check_factor in Hc. rewrite !andb_true_iff in Hc.
      destruct Hc as [[[Hq He] _] _].
      apply existsb_exists in Hq as (q' & Hin & Hq'). apply Z.eqb_eq in Hq'. subst q'.
      rewrite List.Forall_forall in Hknown. apply Z.leb_le in He.
      pose proof (Z.divide_prime_pp s q e Hs (Hknown q Hin) ltac:(lia) Hd) as E.
      subst s. exists e, a. now left.
    + destruct (IH Hcs Hs Hd) as (e' & a' & Hin). exists e', a'. now right.
Qed.

Lemma check_entry_sound (known : list Z) (entry : cert_entry) :
  Forall Z.prime known ->
  check_entry powmod known entry = true -> Z.prime (fst entry).
Proof.
  intros Hknown. destruct entry as [N fs]. unfold check_entry. cbn [fst].
  rewrite !andb_true_iff. intros [[[[HN HF] Hdiv] Hsize] Hfs].
  apply Z.ltb_lt in HN, HF, Hsize. apply Z.eqb_eq in Hdiv.
  apply (pocklington N (cert_F fs)); try assumption.
  - apply Z.mod_divide; [lia | assumption].
  - intros q Hq HqF.
    destruct (cert_F_prime_divisor known N fs q Hknown Hfs Hq HqF) as (e & a & Hin).
    rewrite forallb_forall in Hfs. specialize (Hfs _ Hin).
    unfold check_factor in Hfs. rewrite !andb_true_iff in Hfs.
    destruct Hfs as [[_ H1] H2]. apply Z.eqb_eq in H1, H2.
    pose proof (Z.prime_ge_2 q Hq).
    rewrite powmod_spec in H1 by lia.
    rewrite powmod_spec in H2 by (apply Z.div_pos; lia).
    now exists a.
Qed.

Lemma check_chain_sound (chain : list cert_entry) :
  forall known, Forall Z.prime known ->
  check_chain powmod known chain = true -> Forall Z.prime (map fst chain).
Proof.
  induction chain as [| entry chain IH]; intros known Hknown; cbn [check_chain map].
  - constructor.
  - rewrite andb_true_iff. intros [He Hc].
    pose proof (check_entry_sound known entry Hknown He) as Hp.
    constructor; [assumption|]. apply (IH (fst entry :: known)); [|assumption].
    now constructor.
Qed.

End CheckerSound.

Lemma certificate_checks :
  check_chain FastPow.powmod [2] secp256k1P_certificate = true.
Proof. vm_cast_no_check (eq_refl true). Qed.


Theorem secp256k1P_prime : Z.prime secp256k1P.
Proof.
  assert (Hk : Forall Z.prime [2]) by (constructor; [exact Z.prime_2 | constructor]).
  pose proof (check_chain_sound FastPow.powmod fast_powmod_spec secp256k1P_certificate [2]
                Hk certificate_checks) as H.
  rewrite List.Forall_forall in H. apply H.
  unfold secp256k1P_certificate. cbn [map fst].
  repeat (first [left; reflexivity | right]).
Qed.
(** ** The square root in the field *)

Section SqrtMod.

Lemma P_pos : 0 < secp256k1P.
Proof. reflexivity. Qed.

Lemma rem_nonneg_mod (a : Z) : 0 <= a -> JS.rem a secp256k1P = a mod secp256k1P.
Proof. intros Ha. unfold JS.rem. apply Z.rem_mod_nonneg; [assumption | reflexivity]. Qed.

Lemma power_of_nonneg y e v : power_of y e v -> 0 <= v.
Proof. intros [_ ->]. apply Z.mod_pos_bound, P_pos. Qed.

Lemma power_of_mul y e1 e2 v1 v2 :
  power_of y e1 v1 -> power_of y e2 v2 ->
  power_of y (e1 + e2) (JS.rem (v1 * v2) secp256k1P).
Proof.
  intros H1 H2. pose proof (power_of_nonneg _ _ _ H1). pose proof (power_of_nonneg _ _ _ H2).
  destruct H1 as [He1 ->], H2 as [He2 ->]. split; [lia|].
  rewrite rem_nonneg_mod by nia.
  now rewrite <- Zmult_mod, Z.pow_add_r.
Qed.

Lemma power_of_mul_base y e1 e2 v1 v2 :
  0 <= y -> power_of y e1 v1 -> power_of y e2 v2 ->
  power_of y (e1 + e2 + 1) (JS.rem (v1 * v2 * y) secp256k1P).
Proof.
  intros Hy H1 H2. pose proof (power_of_nonneg _ _ _ H1). pose proof (power_of_nonneg _ _ _ H2).
  destruct H1 as [He1 ->], H2 as [He2 ->]. split; [lia|].
  rewrite rem_nonneg_mod by nia.
  rewrite !Z.pow_add_r, Z.pow_1_r by lia.
  rewrite <- (Zmult_mod_idemp_l (y ^ e1 mod secp256k1P * (y ^ e2 mod secp256k1P))).
  now rewrite <- Zmult_mod, Zmult_mod_idemp_l.
Qed.

Lemma power_of_cube y : 0 <= y -> power_of y 3 (JS.rem (y * y * y) secp256k1P).
Proof.
  intros Hy. split; [lia|]. rewrite rem_nonneg_mod by nia.
  f_equal. change 3 with (1 + 1 + 1). rewrite !Z.pow_add_r, Z.pow_1_r by lia. reflexivity.
Qed.

Lemma Z_iter_succ {A : Type} (f : A -> A) (x : A) (k : Z) :
  0 <= k -> Z.iter (Z.succ k) f x = f (Z.iter k f x).
Proof.
  intros Hk. destruct k as [| p | p]; [reflexivity | | lia].
  rewrite <- Pos2Z.inj_succ. cbn [Z.iter]. apply Pos.iter_succ.
Qed.

Lemma power_of_pow2 y e v k :
  0 <= k -> power_of y e v -> power_of y (e * 2 ^ k) (pow2 v k secp256k1P).
Proof.
  intros Hk Hv. unfold pow2. pattern k. apply natlike_ind; [| | assumption].
  - cbn [Z.iter]. now rewrite Z.pow_0_r, Z.mul_1_r.
  - intros x Hx IH. rewrite Z_iter_succ by assumption.
    rewrite Z.pow_succ_r by assumption.
    replace (e * (2 * 2 ^ x)) with (e * 2 ^ x + e * 2 ^ x) by lia.
    now apply power_of_mul.
Qed.

Ltac intro_let Q :=
  lazymatch goal with
  | |- Q (let x := ?e in @?b x) =>
      let x' := fresh x in
      change (let x' := e in Q (b x')); intros x'; cbv beta
  end.

(** The addition chain: the candidate root is y^((p+1)/4). *)
Lemma sqrtMod_chain (y : Z) (Q : result Z -> Prop) :
  0 <= y ->
  (forall root, power_of y ((secp256k1P + 1) / 4) root ->
     Q (if negb (Fp.eql (Fp.sqr root) y) then Err NoSquareRoot else Ok root)) ->
  Q (sqrtMod y).
Proof.
  intros Hy HQ. cbv delta [sqrtMod]. cbv beta.
  do 22 intro_let Q.
  pose proof (power_of_cube y Hy) as H2. fold P b2 in H2.
  pose proof (power_of_mul_base y _ _ _ _ Hy H2 H2) as H3. fold P b3 in H3.
  assert (step : forall e1 e2 v1 v2 k, 0 <= k ->
            power_of y e1 v1 -> power_of y e2 v2 ->
            power_of y (e1 * 2 ^ k + e2) (JS.rem (pow2 v1 k P * v2) P)).
  { intros. apply power_of_mul; [apply power_of_pow2|]; assumption. }
  pose proof (step _ _ _ _ 3 ltac:(lia) H3 H3) as H6. fold _3n b6 in H6.
  pose proof (step _ _ _ _ 3 ltac:(lia) H6 H3) as H9. fold _3n b9 in H9.
  pose proof (step _ _ _ _ 2 ltac:(lia) H9 H2) as H11. fold b11 in H11.
  pose proof (step _ _ _ _ 11 ltac:(lia) H11 H11) as H22. fold _11n b22 in H22.
  pose proof (step _ _ _ _ 22 ltac:(lia) H22 H22) as H44. fold _22n b44 in H44.
  pose proof (step _ _ _ _ 44 ltac:(lia) H44 H44) as H88. fold _44n b88 in H88.
  pose proof (step _ _ _ _ 88 ltac:(lia) H88 H88) as H176. fold _88n b176 in H176.
  pose proof (step _ _ _ _ 44 ltac:(lia) H176 H44) as H220. fold _44n b220 in H220.
  pose proof (step _ _ _ _ 3 ltac:(lia) H220 H3) as H223. fold _3n b223 in H223.
  pose proof (step _ _ _ _ 23 ltac:(lia) H223 H22) as Ht1. fold _23n t1 in Ht1.
  pose proof (step _ _ _ _ 6 ltac:(lia) Ht1 H2) as Ht2. fold _6n t2 in Ht2.
  pose proof (power_of_pow2 _ _ _ 2 ltac:(lia) Ht2) as Hroot.
  apply HQ.
  match type of Hroot with
  | power_of _ ?e _ => replace ((secp256k1P + 1) / 4) with e by (vm_compute; reflexivity)
  end.
  exact Hroot.
Qed.

Lemma Fp_sqr_mod (x : Z) : Fp.sqr x = (x * x) mod secp256k1P.
Proof. unfold Fp.sqr. apply mod_eq_modulo, P_pos. Qed.

Lemma sqrtMod_shape (y : Z) :
  exists root,
    sqrtMod y = if negb (Fp.eql (Fp.sqr root) y) then Err NoSquareRoot else Ok root.
Proof. eexists. reflexivity. Qed.

(** Whatever [sqrtMod] returns squares to its argument. *)
Lemma sqrtMod_sound (y r : Z) : sqrtMod y = Ok r -> (r * r) mod secp256k1P = y.
Proof.
  destruct (sqrtMod_shape y) as [root ->].
  destruct (Fp.eql (Fp.sqr root) y) eqn:E; cbn [negb]; [|discriminate].
  intros [= <-]. apply Z.eqb_eq in E. now rewrite <- Fp_sqr_mod.
Qed.

Lemma sqrtMod_error (y : Z) (e : error) : sqrtMod y = Err e -> e = NoSquareRoot.
Proof.
  destruct (sqrtMod_shape y) as [root ->].
  destruct (negb (Fp.eql (Fp.sqr root) y)); [now intros [= <-] | discriminate].
Qed.

(** Euler: a square raised to (p+1)/2 is itself. *)
Lemma square_pow_half (z : Z) :
  ((z * z) mod secp256k1P) ^ ((secp256k1P + 1) / 2) mod secp256k1P
  = (z * z) mod secp256k1P.
Proof.
  rewrite Z.mod_pow_l.
  replace (z * z) with (z ^ 2) by (change 2 with (1 + 1); rewrite Z.pow_add_r, Z.pow_1_r; lia).
  rewrite <- Z.pow_mul_r by (try lia; vm_compute; discriminate).
  replace (2 * ((secp256k1P + 1) / 2)) with (secp256k1P + 1) by reflexivity.
  rewrite Z.pow_add_r, Z.pow_1_r by (try lia; vm_compute; discriminate).
  rewrite <- Zmult_mod_idemp_l, (ZmodInv.Z.fermat _ z secp256k1P_prime), Zmult_mod_idemp_l.
  f_equal. change 2 with (1 + 1). rewrite Z.pow_add_r, Z.pow_1_r; lia.
Qed.

Lemma power_of_canonical y e v : power_of y e v -> 0 <= v < secp256k1P.
Proof. intros [_ ->]. apply Z.mod_pos_bound, P_pos. Qed.

(** On a quadratic residue [sqrtMod] returns a square root. *)
Lemma sqrtMod_residue (y : Z) :
  0 <= y < secp256k1P ->
  (exists z, (z * z) mod secp256k1P = y) ->
  exists r, sqrtMod y = Ok r /\ (r * r) mod secp256k1P = y /\ 0 <= r < secp256k1P.
Proof.
  intros Hy [z Hz]. apply sqrtMod_chain; [lia|].
  intros root Hroot. pose proof (power_of_canonical _ _ _ Hroot) as Hr.
  assert (Hsq : (root * root) mod secp256k1P = y).
  { destruct Hroot as [_ ->]. rewrite <- Zmult_mod, <- Z.pow_add_r by (vm_compute; discriminate).
    replace ((secp256k1P + 1) / 4 + (secp256k1P + 1) / 4) with ((secp256k1P + 1) / 2)
      by reflexivity.
    rewrite <- Hz at 1. rewrite square_pow_half. exact Hz. }
  rewrite Fp_sqr_mod, Hsq. unfold Fp.eql. rewrite Z.eqb_refl. cbn [negb].
  exists root. auto.
Qed.

(** On a non-residue it fails, with the no-square-root error. *)
Lemma sqrtMod_non_residue (y : Z) :
  ~ (exists z, (z * z) mod secp256k1P = y) -> sqrtMod y = Err NoSquareRoot.
Proof.
  intros Hnr. destruct (sqrtMod y) as [r | e] eqn:E.
  - exfalso. apply Hnr. exists r. now apply sqrtMod_sound.
  - now rewrite (sqrtMod_error y e E).
Qed.

End SqrtMod.

(** ** The tagged hash and its prefix store *)

(** The hash is never unfolded on an unknown message. *)
#[local] Opaque sha256 SHA256.sha256.

Section TaggedHash.

Lemma cache_ok_empty : cache_ok ∅.
Proof. intros tag v H. rewrite lookup_empty in H. discriminate. Qed.

Lemma cache_ok_insert (c : gmap string bytes) (tag : string) :
  cache_ok c -> cache_ok (<[tag := prefix_of tag]> c).
Proof.
  intros Hc t v. destruct (decide (tag = t)) as [-> | Hne].
  - rewrite lookup_insert_eq. now intros [= <-].
  - rewrite lookup_insert_ne by assumption. apply Hc.
Qed.

Lemma tagged_hash_spec_unfold (tag : string) (messages : list bytes) :
  tagged_hash_spec tag messages = sha256 (concatBytes (prefix_of tag :: messages)).
Proof.
  unfold tagged_hash_spec, concatBytes, prefix_of. cbn [concat]. now rewrite <- app_assoc.
Qed.

(** On a well-formed store, a tag that is not a member of
    [Object.prototype] hashes to the tagged hash, and the store then
    holds its prefix. *)
Lemma taggedHash_ok (tag : string) (messages : list bytes) (c : gmap string bytes) :
  inherited tag = false -> cache_ok c ->
  exists c', taggedHash tag messages c = (Ok (tagged_hash_spec tag messages), c') /\
             cache_ok c' /\ c' !! tag = Some (prefix_of tag).
Proof.
  intros Hi Hc. unfold taggedHash, get_property.
  destruct (c !! tag) as [v |] eqn:E.
  - pose proof (Hc _ _ E) as ->. exists c. cbn [concat_prefixed].
    rewrite tagged_hash_spec_unfold. split; [reflexivity|]. split; assumption.
  - rewrite Hi. exists (<[tag := prefix_of tag]> c).
    change (concatBytes [sha256 (tag_bytes tag); sha256 (tag_bytes tag)])
      with (sha256 (tag_bytes tag) ++ sha256 (tag_bytes tag) ++ []).
    rewrite app_nil_r. fold (prefix_of tag). cbn [concat_prefixed].
    rewrite tagged_hash_spec_unfold. split; [reflexivity|]. split.
    + now apply cache_ok_insert.
    + apply lookup_insert_eq.
Qed.

(** Whatever the tag and the outcome, a well-formed store stays so. *)
Lemma taggedHash_preserves (tag : string) (messages : list bytes) (c : gmap string bytes) :
  cache_ok c -> cache_ok (snd (taggedHash tag messages c)).
Proof.
  intros Hc. unfold taggedHash, get_property.
  destruct (c !! tag) as [v |] eqn:E; [cbn; assumption|].
  destruct (inherited tag); [cbn; assumption|].
  change (concatBytes [sha256 (tag_bytes tag); sha256 (tag_bytes tag)])
    with (sha256 (tag_bytes tag) ++ sha256 (tag_bytes tag) ++ []).
  rewrite app_nil_r. fold (prefix_of tag). cbn. now apply cache_ok_insert.
Qed.

(** On any store, a tag that is not inherited never makes it throw. *)
Lemma taggedHash_total (tag : string) (messages : list bytes) (c : gmap string bytes) :
  inherited tag = false ->
  exists h c', taggedHash tag messages c = (Ok h, c').
Proof.
  intros Hi. unfold taggedHash, get_property.
  destruct (c !! tag) as [v |]; [|rewrite Hi]; cbn [concat_prefixed]; eauto.
Qed.

(** Cache transparency for the tags that are not inherited: a cold call
    and a later call on the store it left return the tagged hash. *)
Lemma taggedHash_cold_then_cached (tag : string) (m1 m2 : list bytes) :
  inherited tag = false ->
  exists c1 c2,
    taggedHash tag m1 ∅ = (Ok (tagged_hash_spec tag m1), c1) /\
    taggedHash tag m2 c1 = (Ok (tagged_hash_spec tag m2), c2) /\
    c1 !! tag = Some (prefix_of tag) /\ c2 = c1.
Proof.
  intros Hi.
  destruct (taggedHash_ok tag m1 ∅ Hi cache_ok_empty) as (c1 & E1 & Hc1 & L1).
  exists c1, c1. repeat split; try assumption.
  unfold taggedHash, get_property. rewrite L1. cbn [concat_prefixed].
  now rewrite tagged_hash_spec_unfold.
Qed.

End TaggedHash.

(** ** Verification *)

Section Verify.

Lemma inherited_challenge : inherited TAGS.challenge = false.
Proof. reflexivity. Qed.

Lemma inherited_aux : inherited TAGS.aux = false.
Proof. reflexivity. Qed.

Lemma inherited_nonce : inherited TAGS.nonce = false.
Proof. reflexivity. Qed.

Lemma taggedHash_run (tag : string) (messages : list bytes) (c : gmap string bytes) :
  inherited tag = false ->
  taggedHash tag messages c =
    (Ok (sha256 (concatBytes (stored_prefix c tag :: messages))),
     match c !! tag with Some _ => c | None => <[tag := prefix_of tag]> c end).
Proof.
  intros Hi. unfold taggedHash, get_property, stored_prefix.
  destruct (c !! tag) as [v |]; [reflexivity|]. rewrite Hi.
  change (concatBytes [sha256 (tag_bytes tag); sha256 (tag_bytes tag)])
    with (sha256 (tag_bytes tag) ++ sha256 (tag_bytes tag) ++ []).
  rewrite app_nil_r. reflexivity.
Qed.

Lemma stored_prefix_ok (c : gmap string bytes) (tag : string) :
  cache_ok c -> stored_prefix c tag = prefix_of tag.
Proof.
  intros Hc. unfold stored_prefix. destruct (c !! tag) as [v |] eqn:E; [|reflexivity].
  now apply Hc.
Qed.

Lemma challenge_run (args : list bytes) (c : gmap string bytes) :
  challenge args c =
    (Ok (challenge_of (stored_prefix c TAGS.challenge) args),
     snd (taggedHash TAGS.challenge args c)).
Proof.
  unfold challenge, bind, ret. rewrite (taggedHash_run _ _ _ inherited_challenge).
  reflexivity.
Qed.

(** The [try] block returns what [verify_result] says, for the prefix the
    store holds or is about to hold for the challenge tag. *)
Lemma schnorrVerify_try_result (sig m pk : bytes) (c : gmap string bytes) :
  fst (schnorrVerify_try sig m pk c) =
  verify_result (stored_prefix c TAGS.challenge) sig m pk.
Proof.
  unfold schnorrVerify_try, verify_result, bind, lift, ret, bind_result.
  destruct (hex32ToInt pk) as [x |]; [|reflexivity].
  destruct (lift_x x) as [P |]; [|reflexivity].
  destruct (ensureBytes sig (Some 64%nat)) as [sig' |]; [|reflexivity].
  destruct (negb (fe (bytesToInt (firstn 32 sig')))); [reflexivity|].
  destruct (negb (ge (bytesToInt (firstn 32 (skipn 32 sig'))))); [reflexivity|].
  destruct (ensureBytes m None) as [m' |]; [|reflexivity].
  destruct (pointToBytes P) as [Pb |]; [|reflexivity].
  rewrite challenge_run.
  destruct (GmulAdd P _ _) as [[R |] |]; [| reflexivity | reflexivity].
  destruct (Point.hasEvenY R) as [even |]; [|reflexivity].
  destruct (Point.toAffine R) as [Rxy |]; [|reflexivity].
  destruct (negb even || negb (fst Rxy =? _)); reflexivity.
Qed.

Lemma schnorrVerify_try_store (sig m pk : bytes) (c : gmap string bytes) :
  cache_ok c -> cache_ok (snd (schnorrVerify_try sig m pk c)).
Proof.
  intros Hc. unfold schnorrVerify_try, bind, lift, ret.
  destruct (hex32ToInt pk) as [x |]; [|assumption].
  destruct (lift_x x) as [P |]; [|assumption].
  destruct (ensureBytes sig (Some 64%nat)) as [sig' |]; [|assumption].
  destruct (negb (fe (bytesToInt (firstn 32 sig')))); [assumption|].
  destruct (negb (ge (bytesToInt (firstn 32 (skipn 32 sig'))))); [assumption|].
  destruct (ensureBytes m None) as [m' |]; [|assumption].
  destruct (pointToBytes P) as [Pb |]; [|assumption].
  rewrite challenge_run.
  pose proof (taggedHash_preserves TAGS.challenge
                [numTo32b (bytesToInt (firstn 32 sig')); Pb; m'] c Hc) as Hc'.
  destruct (GmulAdd P _ _) as [[R |] |]; [| assumption | assumption].
  destruct (Point.hasEvenY R) as [even |]; [|assumption].
  destruct (Point.toAffine R) as [Rxy |]; [|assumption].
  destruct (negb even || negb (fst Rxy =? _)); assumption.
Qed.

(** [schnorrVerify] always returns a boolean: the one of the [try]
    block, or [false] when that block throws. *)
Lemma schnorrVerify_result (sig m pk : bytes) (c : gmap string bytes) :
  fst (schnorrVerify sig m pk c) =
  Ok (match verify_result (stored_prefix c TAGS.challenge) sig m pk with
      | Ok b => b
      | Err _ => false
      end).
Proof.
  rewrite <- schnorrVerify_try_result. unfold schnorrVerify, try_catch, ret.
  destruct (schnorrVerify_try sig m pk c) as [[b | e] c']; reflexivity.
Qed.

Lemma schnorrVerify_store (sig m pk : bytes) (c : gmap string bytes) :
  cache_ok c -> cache_ok (snd (schnorrVerify sig m pk c)).
Proof.
  intros Hc. pose proof (schnorrVerify_try_store sig m pk c Hc) as H.
  unfold schnorrVerify, try_catch, ret.
  destruct (schnorrVerify_try sig m pk c) as [[b | e] c']; exact H.
Qed.

(** On well-formed stores the verdict does not depend on the store. *)
Lemma schnorrVerify_store_independent (sig m pk : bytes) (c1 c2 : gmap string bytes) :
  cache_ok c1 -> cache_ok c2 ->
  fst (schnorrVerify sig m pk c1) = fst (schnorrVerify sig m pk c2).
Proof.
  intros H1 H2. now rewrite !schnorrVerify_result, !stored_prefix_ok.
Qed.

End Verify.

(** ** Which failures the point arithmetic reports *)

Section Errors.

Ltac case_result r :=
  let E := fresh "E" in destruct r eqn:E; cbn [bind_result] in *.

Lemma invert_error (a m : Z) (e : error) : invert a m = Err e -> e = InputRangeError.
Proof.
  unfold invert. destruct ((a =? 0) || (m <=? 0)); [now intros [= <-]|].
  destruct (invert_loop _ _ _ _ _ _ _) as [[g x] |]; [|now intros [= <-]].
  destruct (g =? 1); [discriminate | now intros [= <-]].
Qed.

Lemma toAffine_error (p : ProjPoint) (e : error) :
  Point.toAffine p = Err e -> point_error e.
Proof.
  unfold Point.toAffine, FpOps.inv. destruct (Point.is0 p); [discriminate|].
  case_result (invert (Point.pz p) secp256k1P).
  - destruct (negb _); [intros [= <-]; now right | discriminate].
  - intros [= <-]. left. eapply invert_error; eassumption.
Qed.

Lemma hasEvenY_error (p : ProjPoint) (e : error) :
  Point.hasEvenY p = Err e -> point_error e.
Proof.
  unfold Point.hasEvenY. case_result (Point.toAffine p); [discriminate|].
  intros [= <-]. eapply toAffine_error; eassumption.
Qed.

Lemma assertValidity_error (p : ProjPoint) (e : error) :
  Point.assertValidity p = Err e -> point_error e.
Proof.
  unfold Point.assertValidity. destruct (Point.is0 p); [intros [= <-]; now right|].
  case_result (Point.toAffine p).
  - destruct a as [x y]. destruct (negb (Fp.isValid x) || negb (Fp.isValid y));
      [intros [= <-]; now right|].
    destruct (negb _); [intros [= <-]; now right | discriminate].
  - intros [= <-]. eapply toAffine_error; eassumption.
Qed.

Lemma assertGE_error (n : Z) (e : error) : Point.assertGE n = Err e -> e = InputRangeError.
Proof. unfold Point.assertGE. destruct (_ && _); [discriminate | now intros [= <-]]. Qed.

Lemma multiply_error (p : ProjPoint) (n : Z) (e : error) :
  Point.multiply p n = Err e -> point_error e.
Proof.
  unfold Point.multiply. case_result (Point.assertGE n).
  - destruct n as [| n' | n']; [intros [= <-]; now left | | intros [= <-]; now left].
    cbv zeta. case_result (Point.toAffine (Point.pos_multiply p n')); [discriminate|].
    intros [= <-]. eapply toAffine_error; eassumption.
  - intros [= <-]. left. eapply assertGE_error; eassumption.
Qed.

Lemma multiplyUnsafe_error (p : ProjPoint) (n : Z) (e : error) :
  Point.multiplyUnsafe p n = Err e -> point_error e.
Proof.
  unfold Point.multiplyUnsafe. destruct (n =? 0); [discriminate|].
  case_result (Point.assertGE n).
  - destruct n; [intros [= <-]; now left | discriminate | intros [= <-]; now left].
  - intros [= <-]. left. eapply assertGE_error; eassumption.
Qed.

Lemma toRawBytes_error (p : ProjPoint) (e : error) :
  Point.toRawBytes p = Err e -> point_error e.
Proof.
  unfold Point.toRawBytes. case_result (Point.assertValidity p).
  - case_result (Point.toAffine p).
    + case_result (Point.hasEvenY p); [discriminate|].
      intros [= <-]. eapply hasEvenY_error; eassumption.
    + intros [= <-]. eapply toAffine_error; eassumption.
  - intros [= <-]. eapply assertValidity_error; eassumption.
Qed.

Lemma pointToBytes_error (p : ProjPoint) (e : error) :
  pointToBytes p = Err e -> point_error e.
Proof.
  unfold pointToBytes. case_result (Point.toRawBytes p); [discriminate|].
  intros [= <-]. eapply toRawBytes_error; eassumption.
Qed.

Lemma schnorrGetExtPubKey_error (priv : PrivKey) (e : error) :
  key_well_formed priv -> schnorrGetExtPubKey priv = Err e -> point_error e.
Proof.
  intros Hk. unfold schnorrGetExtPubKey.
  assert (Hd : exists d, match priv with
                         | PrivBigint d => Ok d
                         | PrivBytes b => hex32ToInt b
                         end = Ok d).
  { destruct priv as [b | d]; [|eauto]. cbn in Hk. unfold hex32ToInt, ensureBytes.
    rewrite Hk. cbn. eauto. }
  destruct Hd as [d ->]. cbn [bind_result]. unfold Point.fromPrivateKey.
  case_result (Point.multiply Point.BASE d).
  - case_result (Point.hasEvenY a).
    + case_result (pointToBytes a); [discriminate|].
      intros [= <-]. eapply pointToBytes_error; eassumption.
    + intros [= <-]. eapply hasEvenY_error; eassumption.
  - intros [= <-]. eapply multiply_error; eassumption.
Qed.

End Errors.

(** ** Signing *)

Section Sign.

Lemma Ok_inj {A : Type} (a b : A) : Ok a = Ok b -> a = b.
Proof. now intros [= ->]. Qed.

Lemma cache_ok_fill (c : gmap string bytes) (tag : string) :
  cache_ok c ->
  cache_ok (match c !! tag with Some _ => c | None => <[tag := prefix_of tag]> c end).
Proof. intros Hc. destruct (c !! tag); [assumption | now apply cache_ok_insert]. Qed.

Lemma ensureBytes_length (b b' : bytes) (n : nat) :
  ensureBytes b (Some n) = Ok b' -> b' = b /\ length b = n.
Proof.
  unfold ensureBytes. destruct (Nat.eqb_spec (length b) n); [|discriminate].
  now intros [= <-].
Qed.

(** A signature that [schnorrSign] returns has passed [schnorrVerify]
    against the signer's own x-only public key. *)
Lemma schnorrSign_self_check (m : bytes) (priv : PrivKey) (aux : bytes)
    (c : gmap string bytes) (sig : bytes) :
  cache_ok c ->
  fst (schnorrSign m priv aux c) = Ok sig ->
  exists ext c1,
    schnorrGetExtPubKey priv = Ok ext /\
    cache_ok c1 /\
    fst (schnorrVerify sig m (bytes_ ext) c1) = Ok true /\
    length aux = 32%nat.
Proof.
  intros Hc. unfold schnorrSign, bind, lift, ret, throw. cbv zeta.
  change (ensureBytes m None) with (Ok m).
  destruct (schnorrGetExtPubKey priv) as [ext |]; [|discriminate].
  destruct (ensureBytes aux (Some 32%nat)) as [a |] eqn:Ea; [|discriminate].
  apply ensureBytes_length in Ea as [-> Haux].
  rewrite (taggedHash_run _ _ _ inherited_aux).
  set (c1 := match c !! TAGS.aux with Some _ => c | None => _ end).
  assert (Hc1 : cache_ok c1) by now apply cache_ok_fill.
  clearbody c1.
  rewrite (taggedHash_run _ _ _ inherited_nonce).
  set (c2 := match c1 !! TAGS.nonce with Some _ => c1 | None => _ end).
  assert (Hc2 : cache_ok c2) by now apply cache_ok_fill.
  clearbody c2.
  destruct (modN _ =? _0n); [discriminate|].
  destruct (schnorrGetExtPubKey (PrivBigint _)) as [extR |]; [|discriminate].
  rewrite challenge_run.
  match goal with
  | |- context [snd (taggedHash TAGS.challenge ?args c2)] =>
      pose proof (taggedHash_preserves TAGS.challenge args c2 Hc2) as Hc3;
      set (c3 := snd (taggedHash TAGS.challenge args c2)) in *; clearbody c3
  end.
  match goal with
  | |- context [schnorrVerify ?s m (bytes_ ext) c3] =>
      destruct (schnorrVerify s m (bytes_ ext) c3) as [r c4] eqn:Ev
  end.
  destruct r as [ok | e]; [|discriminate].
  destruct ok; cbn [negb]; [|discriminate].
  cbv beta. cbn [fst]. intros H. apply Ok_inj in H. subst sig.
  exists ext, c3. rewrite Ev. auto.
Qed.

(** With a well-formed key and 32 bytes of auxiliary randomness,
    [schnorrSign] fails only for a scalar or point the curve library
    refuses, a zero nonce, or a failed self-check. *)
Lemma schnorrSign_error (m : bytes) (priv : PrivKey) (aux : bytes)
    (c : gmap string bytes) (e : error) :
  key_well_formed priv -> length aux = 32%nat ->
  fst (schnorrSign m priv aux c) = Err e ->
  point_error e \/ e = NonceIsZero \/ e = SignatureSelfCheckFailure.
Proof.
  intros Hk Haux. unfold schnorrSign, bind, lift, ret, throw. cbv zeta.
  change (ensureBytes m None) with (Ok m).
  destruct (schnorrGetExtPubKey priv) as [ext | e0] eqn:Eext.
  2:{ cbv beta iota. cbn [fst]. intros [= <-]. left. eapply schnorrGetExtPubKey_error; eassumption. }
  unfold ensureBytes at 1. rewrite Haux. cbn [Nat.eqb].
  rewrite (taggedHash_run _ _ _ inherited_aux), (taggedHash_run _ _ _ inherited_nonce).
  destruct (modN _ =? _0n); [cbv beta iota; cbn [fst]; intros [= <-]; auto|].
  destruct (schnorrGetExtPubKey (PrivBigint _)) as [extR | e0] eqn:ER.
  2:{ cbv beta iota. cbn [fst]. intros [= <-]. left.
      eapply (schnorrGetExtPubKey_error (PrivBigint _)); [exact I | eassumption]. }
  rewrite challenge_run.
  match goal with
  | |- context [schnorrVerify ?s m (bytes_ ext) ?c3] =>
      pose proof (schnorrVerify_result s m (bytes_ ext) c3) as Hv;
      destruct (schnorrVerify s m (bytes_ ext) c3) as [[ok | e0] c4]
  end; [|discriminate].
  destruct ok; cbn [negb]; cbv beta iota; cbn [fst]; [discriminate | intros [= <-]; auto].
Qed.

End Sign.

(** ** lift_x *)

Section LiftX.

#[local] Abbreviation p := secp256k1P.

Lemma fe_spec (x : Z) : fe x = true <-> 0 < x < p.
Proof. unfold fe, _0n. rewrite andb_true_iff, !Z.ltb_lt. tauto. Qed.

Lemma FpOps_mul_mod (a b : Z) : FpOps.mul a b = (a * b) mod p.
Proof. unfold FpOps.mul. now apply mod_eq_modulo. Qed.

Lemma FpOps_add_mod (a b : Z) : FpOps.add a b = (a + b) mod p.
Proof. unfold FpOps.add. now apply mod_eq_modulo. Qed.

Lemma isValid_spec (x : Z) : 0 <= x < p -> Fp.isValid x = true.
Proof. intros H. unfold Fp.isValid. apply andb_true_iff. rewrite Z.leb_le, Z.ltb_lt. lia. Qed.

(** A point given by canonical affine coordinates on the curve passes
    the validity check. *)
Lemma assertValidity_affine (x y : Z) :
  0 <= x < p -> 0 <= y < p ->
  (y * y) mod p = (x * x * x + 7) mod p ->
  Point.assertValidity (MkPoint x y 1) = Ok tt.
Proof.
  intros Hx Hy Hcurve.
  assert (H0 : Point.is0 (MkPoint x y 1) = false).
  { unfold Point.is0, Point.equals, Point.ZERO. cbn [Point.px Point.py Point.pz].
    rewrite !FpOps_mul_mod, !Z.mul_0_r. apply andb_false_iff. right. reflexivity. }
  assert (HA : Point.toAffine (MkPoint x y 1) = Ok (x, y)).
  { unfold Point.toAffine. rewrite H0. cbn [Point.px Point.py Point.pz].
    change (FpOps.inv 1) with (Ok (A := Z) 1). cbn [bind_result].
    rewrite !FpOps_mul_mod, !Z.mul_1_r, (Z.mod_small x), (Z.mod_small y) by lia.
    reflexivity. }
  unfold Point.assertValidity. rewrite H0, HA. cbn [bind_result].
  rewrite !isValid_spec by assumption. cbn [negb orb].
  rewrite !Fp_sqr_mod, FpOps_mul_mod, !FpOps_add_mod, FpOps_mul_mod.
  unfold Point.CURVE_a, Point.CURVE_b. rewrite Z.mul_0_r, Z.mod_0_l by discriminate.
  rewrite Z.add_0_r, Zmod_mod, Zmult_mod_idemp_l, Zplus_mod_idemp_l, Hcurve.
  unfold Fp.eql. now rewrite Z.eqb_refl.
Qed.

Lemma lift_x_out_of_range (x : Z) : ~ (0 < x < p) -> lift_x x = Err BadPublicKeyX.
Proof.
  intros H. unfold lift_x. destruct (fe x) eqn:E; [|reflexivity].
  apply fe_spec in E. contradiction.
Qed.

Lemma lift_x_no_root (x : Z) :
  0 < x < p ->
  ~ (exists z, (z * z) mod p = (x * x * x + 7) mod p) ->
  lift_x x = Err NoSquareRoot.
Proof.
  intros Hx Hnr. unfold lift_x. rewrite (proj2 (fe_spec x) Hx). cbn [negb].
  rewrite mod_eq_modulo by reflexivity.
  rewrite (sqrtMod_non_residue _ Hnr). reflexivity.
Qed.

(** With a square root at hand, [lift_x] returns the point of even y. *)
Lemma lift_x_even (x : Z) :
  0 < x < p ->
  (exists z, (z * z) mod p = (x * x * x + 7) mod p) ->
  exists y,
    lift_x x = Ok (MkPoint x y 1) /\
    0 <= y < p /\ Z.even y = true /\
    (y * y) mod p = (x * x * x + 7) mod p.
Proof.
  intros Hx Hqr. unfold lift_x. rewrite (proj2 (fe_spec x) Hx). cbn [negb].
  rewrite mod_eq_modulo by reflexivity.
  pose proof (Z.mod_pos_bound (x * x * x + 7) p ltac:(reflexivity)) as Hc.
  destruct (sqrtMod_residue _ Hc Hqr) as (y0 & -> & Hsq & Hy0). cbn [bind_result].
  assert (HY : (if negb (JS.rem y0 2 =? 0) then mod_ (- y0) p else y0)
               = if Z.even y0 then y0 else p - y0).
  { unfold JS.rem. rewrite Z.rem_mod_nonneg, Zmod_even by lia.
    destruct (Z.even y0) eqn:Ee; cbn [Z.eqb negb]; [reflexivity|].
    rewrite mod_eq_modulo by reflexivity. symmetry.
    apply (Z.mod_unique_pos _ _ (-1)); [|lia].
    assert (y0 <> 0) by (intros ->; discriminate). lia. }
  cbv zeta. rewrite HY. clear HY. unfold _1n.
  destruct (Z.even y0) eqn:Ee.
  - exists y0. rewrite assertValidity_affine by (assumption || lia). cbn [bind_result].
    repeat split; first [reflexivity | assumption | lia].
  - assert (y0 <> 0) by (intros ->; discriminate).
    assert (Hsq' : ((p - y0) * (p - y0)) mod p = (x * x * x + 7) mod p).
    { rewrite <- Hsq. replace ((p - y0) * (p - y0)) with (y0 * y0 + (p - 2 * y0) * p) by lia.
      apply Z_mod_plus_full. }
    exists (p - y0). rewrite assertValidity_affine by (assumption || lia).
    cbn [bind_result]. repeat split; try first [reflexivity | assumption | lia].
    rewrite Z.even_sub, Ee. reflexivity.
Qed.

End LiftX.

(** ** Key normalisation *)

Section ExtPubKey.

#[local] Abbreviation n := secp256k1N.

Lemma isOdd_even (y : Z) : negb (FpOps.isOdd y) = Z.even y.
Proof.
  unfold FpOps.isOdd. change 1 with (Z.ones 1) at 1. rewrite Z.land_ones by lia.
  change (2 ^ 1) with 2. rewrite Zmod_even. now destruct (Z.even y).
Qed.

Lemma hasEvenY_spec (P : ProjPoint) (even : bool) :
  Point.hasEvenY P = Ok even <->
  exists x y, Point.toAffine P = Ok (x, y) /\ even = Z.even y.
Proof.
  unfold Point.hasEvenY. destruct (Point.toAffine P) as [[x y] | e]; cbn [bind_result snd].
  - rewrite isOdd_even. split.
    + intros [= <-]. eauto.
    + intros (x' & y' & [= <- <-] & ->). reflexivity.
  - split; [discriminate | intros (? & ? & [=] & _)].
Qed.

Lemma pointToBytes_spec (P : ProjPoint) (b : bytes) :
  pointToBytes P = Ok b <->
  exists x y, Point.toAffine P = Ok (x, y) /\ Point.assertValidity P = Ok tt /\
              b = numberToBytesBE x 32.
Proof.
  unfold pointToBytes, Point.toRawBytes, Point.hasEvenY.
  destruct (Point.assertValidity P) as [[] | e]; cbn [bind_result].
  2:{ split; [discriminate | intros (? & ? & _ & [=] & _)]. }
  destruct (Point.toAffine P) as [[x y] | e]; cbn [bind_result fst snd].
  2:{ split; [discriminate | intros (? & ? & [=] & _)]. }
  unfold concatBytes. cbn [concat skipn app]. rewrite app_nil_r. split.
  - intros H. apply Ok_inj in H. subst b. eauto.
  - intros (x' & y' & H & _ & ->). apply Ok_inj in H.
    apply pair_equal_spec in H as [<- _]. reflexivity.
Qed.

Lemma fromPrivateKey_range (d : Z) (P : ProjPoint) :
  Point.fromPrivateKey d = Ok P -> 0 < d < n.
Proof.
  unfold Point.fromPrivateKey, Point.multiply, Point.assertGE.
  destruct (Z.ltb_spec 0 d); [|discriminate].
  destruct (Z.ltb_spec d n); [|discriminate]. auto.
Qed.

Lemma modN_opp (d : Z) : 0 < d < n -> modN (- d) = n - d.
Proof.
  intros Hd. unfold modN. rewrite mod_eq_modulo by reflexivity. symmetry.
  apply (Z.mod_unique_pos _ _ (-1)); lia.
Qed.

(** [schnorrGetExtPubKey] returns exactly when the curve library returns
    the point d0.G and its encoding; it returns that point unchanged, the
    scalar d0 or n - d0 according to the parity of the point's y, and the
    32 bytes of the point's x. *)
Lemma schnorrGetExtPubKey_spec (priv : PrivKey) (d0 : Z) (ext : ExtPubKey) :
  key_value priv = Ok d0 ->
  schnorrGetExtPubKey priv = Ok ext <->
  (0 < d0 < n /\
   Point.fromPrivateKey d0 = Ok (point ext) /\
   exists x y,
     Point.toAffine (point ext) = Ok (x, y) /\
     Point.assertValidity (point ext) = Ok tt /\
     scalar ext = (if Z.even y then d0 else n - d0) /\
     bytes_ ext = numberToBytesBE x 32).
Proof.
  intros Hk. unfold schnorrGetExtPubKey. fold (key_value priv). rewrite Hk.
  cbn [bind_result]. split.
  - destruct (Point.fromPrivateKey d0) as [P | e] eqn:EP; [|discriminate].
    cbn [bind_result]. pose proof (fromPrivateKey_range _ _ EP) as Hd.
    destruct (Point.hasEvenY P) as [even | e] eqn:EY; [|discriminate].
    destruct (pointToBytes P) as [b | e] eqn:EB; [|discriminate].
    cbn [bind_result]. intros H. apply Ok_inj in H. subst ext. cbn [point scalar bytes_].
    apply hasEvenY_spec in EY as (x & y & HA & ->).
    apply pointToBytes_spec in EB as (x' & y' & HA' & HV & ->).
    rewrite HA in HA'. apply Ok_inj in HA'. apply pair_equal_spec in HA' as [<- <-].
    split; [assumption|]. split; [reflexivity|]. exists x, y.
    rewrite modN_opp by assumption. auto.
  - intros (Hd & EP & x & y & HA & HV & Hs & Hb). rewrite EP. cbn [bind_result].
    rewrite (proj2 (hasEvenY_spec (point ext) (Z.even y))) by eauto.
    rewrite (proj2 (pointToBytes_spec (point ext) (numberToBytesBE x 32))) by eauto.
    cbn [bind_result]. rewrite modN_opp by assumption.
    destruct ext as [P s b]. cbn [point scalar bytes_] in *. now subst.
Qed.

End ExtPubKey.

(** ** The model run on concrete inputs *)

Section Runs.

(** The model reproduces the first published BIP-340 test vector. *)
Lemma sign_vector0 :
  fst (schnorrSign Vectors.zeros32 (PrivBytes Vectors.seckey3) Vectors.zeros32 ∅)
  = Ok Vectors.signature0.
Proof.
  with_fast_loops.
  vm_cast_no_check (eq_refl (Ok (A := bytes) Vectors.signature0)).
Qed.

Lemma sign_message31 :
  fst (schnorrSign Vectors.message31 (PrivBytes Vectors.seckey6) Vectors.aux_counting ∅)
  = Ok Vectors.signature31.
Proof.
  with_fast_loops.
  vm_cast_no_check (eq_refl (Ok (A := bytes) Vectors.signature31)).
Qed.

Lemma pubkey_of_6 : schnorrGetPublicKey Vectors.seckey6 = Ok Vectors.pubkey6.
Proof.
  with_fast_loops.
  vm_cast_no_check (eq_refl (Ok (A := bytes) Vectors.pubkey6)).
Qed.

Lemma extpubkey_of_6 :
  schnorrGetExtPubKey (PrivBytes Vectors.seckey6) = Ok Vectors.ext6.
Proof.
  with_fast_loops.
  vm_cast_no_check (eq_refl (Ok (A := ExtPubKey) Vectors.ext6)).
Qed.

Lemma point6_has_odd_y : Point.hasEvenY Vectors.point6 = Ok false.
Proof.
  with_fast_loops.
  vm_cast_no_check (eq_refl (Ok (A := bool) false)).
Qed.

End Runs.

(** ** Shapes of accepted signatures *)

Section Shapes.

Lemma length_numberToBytesBE_aux (len : nat) (n : Z) (acc : bytes) :
  length (numberToBytesBE_aux len n acc) = (len + length acc)%nat.
Proof.
  revert n acc. induction len as [| len IH]; intros n acc; cbn [numberToBytesBE_aux].
  - reflexivity.
  - rewrite IH. cbn [length]. lia.
Qed.

Lemma length_numberToBytesBE (n : Z) (len : nat) : length (numberToBytesBE n len) = len.
Proof. unfold numberToBytesBE. rewrite length_numberToBytesBE_aux. cbn [length]. lia. Qed.

(** An accepted signature has 64 bytes and an accepted key 32. *)
Lemma schnorrVerify_true_lengths (sig m pk : bytes) (c : gmap string bytes) :
  fst (schnorrVerify sig m pk c) = Ok true ->
  length sig = 64%nat /\ length pk = 32%nat.
Proof.
  rewrite schnorrVerify_result. intros H. apply Ok_inj in H.
  unfold verify_result, hex32ToInt in H.
  destruct (ensureBytes pk (Some 32%nat)) as [pk' |] eqn:Epk; [|discriminate].
  apply ensureBytes_length in Epk as [-> Hpk]. cbn [bind_result] in H.
  destruct (lift_x (bytesToInt pk)) as [P |]; [|discriminate]. cbn [bind_result] in H.
  destruct (ensureBytes sig (Some 64%nat)) as [sig' |] eqn:Esig; [|discriminate].
  apply ensureBytes_length in Esig as [-> Hsig]. auto.
Qed.

(** A returned signature verifies under the signer's public key, on any
    well-formed store and whatever the length of the message. *)
Lemma sign_then_verify (d m aux sig : bytes) (c c2 : gmap string bytes) :
  cache_ok c -> cache_ok c2 ->
  fst (schnorrSign m (PrivBytes d) aux c) = Ok sig ->
  length sig = 64%nat /\
  exists pk, schnorrGetPublicKey d = Ok pk /\ fst (schnorrVerify sig m pk c2) = Ok true.
Proof.
  intros Hc Hc2 Hs.
  destruct (schnorrSign_self_check m (PrivBytes d) aux c sig Hc Hs)
    as (ext & c1 & Hext & Hc1 & Hv & _).
  split; [exact (proj1 (schnorrVerify_true_lengths _ _ _ _ Hv))|].
  exists (bytes_ ext). split.
  - unfold schnorrGetPublicKey. now rewrite Hext.
  - now rewrite (schnorrVerify_store_independent sig m (bytes_ ext) c2 c1).
Qed.

End Shapes.

(** ** The curve constants fit together *)

Section Sanity.

(** lambda is the eigenvalue of the endomorphism on the base point:
    lambda.G = (beta.Gx, Gy). *)
Lemma lambda_eigenvalue :
  Point.multiply Point.BASE Endo.lambda
  = Ok (MkPoint ((Endo.beta * Point.Gx) mod secp256k1P) Point.Gy 1).
Proof.
  with_fast_loops.
  vm_cast_no_check
    (eq_refl (Ok (MkPoint ((Endo.beta * Point.Gx) mod secp256k1P) Point.Gy 1))).
Qed.

Lemma sqrtMod_4 : sqrtMod 4 = Ok 2.
Proof. with_fast_loops. vm_cast_no_check (eq_refl (Ok 2)). Qed.

Lemma sqrtMod_3 : sqrtMod 3 = Err NoSquareRoot.
Proof. with_fast_loops. vm_cast_no_check (eq_refl (Err (A := Z) NoSquareRoot)). Qed.

(** Euler's criterion, the way it is used to exhibit a non-residue. *)
Lemma euler_non_residue (y : Z) :
  0 < y < secp256k1P ->
  FastPow.powmod y ((secp256k1P - 1) / 2) secp256k1P <> 1 ->
  ~ (exists z, (z * z) mod secp256k1P = y).
Proof.
  intros Hy Hpow [z Hz]. apply Hpow.
  rewrite fast_powmod_spec by (vm_compute; discriminate).
  rewrite <- Hz, Z.mod_pow_l.
  replace (z * z) with (z ^ 2) by (change 2 with (1 + 1); rewrite Z.pow_add_r, Z.pow_1_r; lia).
  rewrite <- Z.pow_mul_r by (try lia; vm_compute; discriminate).
  replace (2 * ((secp256k1P - 1) / 2)) with (secp256k1P - 1) by reflexivity.
  apply ZmodInv.Z.fermat_nz; [exact secp256k1P_prime|].
  intros Hz0. rewrite Zmult_mod, Hz0, Z.mul_0_l, Z.mod_0_l in Hz by discriminate. lia.
Qed.

Lemma five_cubed_plus_7_non_residue :
  ~ (exists z, (z * z) mod secp256k1P = (5 * 5 * 5 + 7) mod secp256k1P).
Proof.
  change ((5 * 5 * 5 + 7) mod secp256k1P) with 132.
  apply euler_non_residue; [unfold secp256k1P; lia|].
  vm_compute. discriminate.
Qed.

(** The derived round constants and initial state are those of
    FIPS 180-4, and the hash agrees with its one-block example. *)
Lemma sha256_constants :
  length SHA256.K = 64%nat /\
  nth 0 SHA256.K 0 = 0x428a2f98 /\ nth 63 SHA256.K 0 = 0xc67178f2 /\
  SHA256.sa SHA256.H0 = 0x6a09e667 /\ SHA256.sh SHA256.H0 = 0x5be0cd19.
Proof. repeat split. Qed.

Lemma sha256_abc :
  bytesToInt (sha256 (String.list_byte_of_string "abc"))
  = 0xba7816bf8f01cfea414140de5dae2223b00361a396177a9cb410ff61f20015ad.
Proof. vm_compute. reflexivity. Qed.

End Sanity.

(** ** The multiples of the base point

    Every d.G with 0 < d < n is a finite point of the curve, so the
    key derivation returns for every scalar in that range. *)

(** *** Congruence modulo the field prime *)

Section Congruence.

#[local] Abbreviation p := secp256k1P.

#[export] Instance eqp_equivalence : Equivalence eqp.
Proof.
  split.
  - intros a. reflexivity.
  - intros a b H. symmetry. exact H.
  - intros a b c H1 H2. unfold eqp in *. congruence.
Qed.

#[export] Instance eqp_add : Proper (eqp ==> eqp ==> eqp) Z.add.
Proof. intros a a' Ha b b' Hb. unfold eqp in *. now rewrite Zplus_mod, Ha, Hb, <- Zplus_mod. Qed.

#[export] Instance eqp_mul : Proper (eqp ==> eqp ==> eqp) Z.mul.
Proof. intros a a' Ha b b' Hb. unfold eqp in *. now rewrite Zmult_mod, Ha, Hb, <- Zmult_mod. Qed.

#[export] Instance eqp_opp : Proper (eqp ==> eqp) Z.opp.
Proof.
  intros a a' Ha. change (- a) with (-1 * a)%Z.
  replace (- a) with (-1 * a) by lia. replace (- a') with (-1 * a') by lia.
  now rewrite Ha.
Qed.

#[export] Instance eqp_sub : Proper (eqp ==> eqp ==> eqp) Z.sub.
Proof. intros a a' Ha b b' Hb. unfold Z.sub. now rewrite Ha, Hb. Qed.

Lemma eqp_mod (a : Z) : eqp (a mod p) a.
Proof. unfold eqp. apply Zmod_mod. Qed.

Lemma eqp_mod_ (a : Z) : eqp (mod_ a p) a.
Proof. rewrite mod_eq_modulo by reflexivity. apply eqp_mod. Qed.

Lemma eqp_0_divide (a : Z) : eqp a 0 <-> (p | a).
Proof.
  unfold eqp. rewrite Z.mod_0_l by discriminate. split.
  - intros H. apply Z.mod_divide; [discriminate | assumption].
  - intros H. apply Z.mod_divide; [discriminate | assumption].
Qed.

Lemma eqp_pow (a b : Z) (e : Z) : eqp a b -> eqp (a ^ e) (b ^ e).
Proof.
  intros H. destruct (Z_lt_le_dec e 0) as [Hneg | Hpos].
  - now rewrite !Z.pow_neg_r by assumption.
  - unfold eqp in *. rewrite <- (Z.mod_pow_l a), <- (Z.mod_pow_l b). now rewrite H.
Qed.

(** The field has no zero divisors. *)
Lemma eqp_mul_zero (a b : Z) : eqp (a * b) 0 -> eqp a 0 \/ eqp b 0.
Proof.
  rewrite !eqp_0_divide. apply prime_mult. apply prime_alt. exact secp256k1P_prime.
Qed.

Lemma eqp_mul_nonzero (a b : Z) : ~ eqp a 0 -> ~ eqp b 0 -> ~ eqp (a * b) 0.
Proof. intros Ha Hb H. destruct (eqp_mul_zero _ _ H); contradiction. Qed.

Lemma eqp_mul_cancel_l (c a b : Z) : ~ eqp c 0 -> eqp (c * a) (c * b) -> eqp a b.
Proof.
  intros Hc H. assert (H0 : eqp (c * (a - b)) 0).
  { replace (c * (a - b)) with (c * a - c * b) by lia. rewrite H. now replace (c * b - c * b) with 0 by lia. }
  destruct (eqp_mul_zero _ _ H0) as [|H1]; [contradiction|].
  replace a with (a - b + b) by lia. rewrite H1. reflexivity.
Qed.

Lemma eqp_pow_nonzero (a : Z) (e : nat) : ~ eqp a 0 -> ~ eqp (a ^ Z.of_nat e) 0.
Proof.
  intros Ha. induction e as [| e IH].
  - cbn. discriminate.
  - rewrite Nat2Z.inj_succ, Z.pow_succ_r by lia. now apply eqp_mul_nonzero.
Qed.

Lemma eqp_dec (a b : Z) : {eqp a b} + {~ eqp a b}.
Proof. unfold eqp. apply Z.eq_dec. Qed.

Lemma eqp_square_roots (a b : Z) : eqp (a * a) (b * b) -> eqp a b \/ eqp a (- b).
Proof.
  intros H. assert (H0 : eqp ((a - b) * (a + b)) 0).
  { replace ((a - b) * (a + b)) with (a * a - b * b) by lia. rewrite H.
    now replace (b * b - b * b) with 0 by lia. }
  destruct (eqp_mul_zero _ _ H0) as [H1 | H1]; [left | right].
  - replace a with (a - b + b) by lia. rewrite H1. reflexivity.
  - replace a with (a + b + - b) by lia. rewrite H1. reflexivity.
Qed.

(** Fermat's little theorem in the field. *)
Lemma eqp_fermat (a : Z) : ~ eqp a 0 -> eqp (a ^ (p - 1)) 1.
Proof.
  intros Ha. unfold eqp. rewrite (Z.mod_small 1) by (unfold secp256k1P; lia).
  apply ZmodInv.Z.fermat_nz; [exact secp256k1P_prime|].
  intros H. apply Ha. unfold eqp. now rewrite Z.mod_0_l by discriminate.
Qed.

Lemma cube_power (e u v : Z) :
  0 <= e -> 3 * e = p - 1 -> ~ eqp v 0 ->
  eqp (u * u * u) (- 7 * (v * v * v)) ->
  FastPow.powmod (-7) e p = 1.
Proof.
  intros He0 He Hv H.
  assert (Hu : ~ eqp u 0).
  { intros Hu. rewrite Hu in H. cbn in H. symmetry in H.
    destruct (eqp_mul_zero _ _ H) as [H7 | H3]; [discriminate H7|].
    apply Hv. destruct (eqp_mul_zero _ _ H3) as [H2 | ?]; [|assumption].
    destruct (eqp_mul_zero _ _ H2); assumption. }
  assert (H3 : forall w, w ^ (p - 1) = (w * w * w) ^ e).
  { intros w. rewrite <- He. rewrite Z.pow_mul_r by lia.
    f_equal. change 3 with (1 + 1 + 1). rewrite !Z.pow_add_r, Z.pow_1_r by lia. reflexivity. }
  rewrite fast_powmod_spec by assumption.
  change (eqp ((-7) ^ e) 1).
  rewrite <- (eqp_fermat u Hu), (H3 u). rewrite (eqp_pow _ _ e H).
  rewrite Z.pow_mul_l, <- (H3 v), (eqp_fermat v Hv). now rewrite Z.mul_1_r.
Qed.

(** -7 is not a cube in the field, so the curve has no point with
    y = 0, that is no point of order two. *)
Lemma minus_seven_not_a_cube (u v : Z) :
  ~ eqp v 0 -> ~ eqp (u * u * u) (- 7 * (v * v * v)).
Proof.
  intros Hv H.
  pose proof (cube_power ((p - 1) / 3) u v ltac:(vm_compute; discriminate)
                ltac:(reflexivity) Hv H) as Hc.
  revert Hc. vm_compute. discriminate.
Qed.

End Congruence.

(** *** Polynomial arithmetic is sound *)

Section PolySound.

#[local] Notation "[ c ]" := (BigZ.to_Z c).

Lemma reduce_eqp (c : bigZ) : eqp [reduce c] [c].
Proof. unfold reduce. rewrite BigZ.spec_modulo, fast_bP. apply eqp_mod. Qed.

Lemma mono_compare_eq (m1 m2 : mono) : mono_compare m1 m2 = Eq -> m1 = m2.
Proof.
  destruct m1 as [[i1 j1] k1], m2 as [[i2 j2] k2]. unfold mono_compare. cbn [fst snd].
  destruct (N.compare_spec i1 i2); try discriminate.
  destruct (N.compare_spec j1 j2); try discriminate.
  destruct (N.compare_spec k1 k2); try discriminate.
  intros _. now subst.
Qed.

Variables x y z : Z.
Hypothesis Hcurve : eqp (x * x * x) (y * y * z - 7 * (z * z * z)).

#[local] Abbreviation evm := (ev_mono x y z).
#[local] Abbreviation evp := (ev x y z).

Ltac by_ring := apply eq_subrelation; [typeclasses eauto | ring].

Lemma ev_cons (t : bigZ * mono) (q : poly) : evp (t :: q) = [fst t] * evm (snd t) + evp q.
Proof. reflexivity. Qed.

Lemma ev_insert (c : bigZ) (m : mono) (q : poly) :
  eqp (evp (insert c m q)) ([c] * evm m + evp q).
Proof.
  induction q as [| t q IH]; cbn [insert].
  - reflexivity.
  - destruct (mono_compare m (snd t)) eqn:E.
    + apply mono_compare_eq in E. rewrite !ev_cons. cbn [fst snd].
      rewrite reduce_eqp, BigZ.spec_add, <- E. by_ring.
    + reflexivity.
    + rewrite !ev_cons, IH. by_ring.
Qed.

Lemma ev_mono_cube (i j k : N) :
  (3 <= i)%N ->
  eqp (evm (i, j, k))
      (evm ((i - 3)%N, (j + 2)%N, (k + 1)%N) + -7 * evm ((i - 3)%N, j, (k + 3)%N)).
Proof.
  intros Hi. unfold ev_mono. cbn [fst snd].
  replace (Z.of_N i) with (Z.of_N (i - 3) + 3) by lia.
  rewrite !N2Z.inj_add, !Z.pow_add_r by lia.
  change (Z.of_N 2) with 2. change (Z.of_N 1) with 1. change (Z.of_N 3) with 3.
  replace (x ^ 3) with (x * x * x) by lia.
  rewrite Hcurve. by_ring.
Qed.

Lemma ev_add_mono (c : bigZ) (m : mono) (q : poly) :
  eqp (evp (add_mono c m q)) ([c] * evm m + evp q).
Proof.
  destruct m as [[i j] k]. unfold add_mono.
  destruct (N.leb_spec 3 i) as [Hi | Hi].
  - rewrite !ev_insert, reduce_eqp, BigZ.spec_mul, (ev_mono_cube i j k Hi).
    change [-7] with (-7). by_ring.
  - apply ev_insert.
Qed.

Lemma ev_padd (q1 q2 : poly) : eqp (evp (padd q1 q2)) (evp q1 + evp q2).
Proof.
  unfold padd. induction q1 as [| t q1 IH]; cbn [fold_right].
  - reflexivity.
  - rewrite ev_add_mono, IH, ev_cons. by_ring.
Qed.

Lemma ev_psub (q1 q2 : poly) : eqp (evp (psub q1 q2)) (evp q1 - evp q2).
Proof.
  unfold psub. induction q2 as [| t q2 IH]; cbn [fold_right].
  - apply eq_subrelation; [typeclasses eauto|]. cbn [ev fold_right]. ring.
  - rewrite ev_add_mono, IH, ev_cons, reduce_eqp, BigZ.spec_opp. by_ring.
Qed.

Lemma ev_mono_mul (m1 m2 : mono) : evm (mono_mul m1 m2) = evm m1 * evm m2.
Proof.
  unfold ev_mono, mono_mul. cbn [fst snd].
  rewrite !N2Z.inj_add, !Z.pow_add_r by lia. ring.
Qed.

Lemma ev_pmul_row (c1 : bigZ) (m1 : mono) (q2 acc : poly) :
  eqp (evp (fold_right
              (fun (t2 : bigZ * mono) acc' =>
                 add_mono (reduce (BigZ.mul c1 (fst t2))) (mono_mul m1 (snd t2)) acc')
              acc q2))
      ([c1] * evm m1 * evp q2 + evp acc).
Proof.
  induction q2 as [| t2 q2 IH2]; cbn [fold_right].
  - apply eq_subrelation; [typeclasses eauto|]. cbn [ev fold_right]. ring.
  - rewrite ev_add_mono, IH2, ev_mono_mul, ev_cons, reduce_eqp, BigZ.spec_mul. by_ring.
Qed.

Lemma ev_pmul (q1 q2 : poly) : eqp (evp (pmul q1 q2)) (evp q1 * evp q2).
Proof.
  unfold pmul. induction q1 as [| t1 q1 IH]; cbn [fold_right].
  - reflexivity.
  - rewrite ev_pmul_row, IH, ev_cons. by_ring.
Qed.

Lemma ev_pconst (c : Z) : evp (pconst c) = c.
Proof.
  unfold pconst, ev, ev_mono. cbn [fold_right fst snd Z.of_N].
  rewrite BigZ.spec_of_Z, !Z.pow_0_r. lia.
Qed.

Lemma ev_pX : evp pX = x.
Proof.
  unfold pX, ev, ev_mono. cbn [fold_right fst snd Z.of_N].
  change [1] with 1. rewrite Z.pow_1_r, !Z.pow_0_r. lia.
Qed.

Lemma ev_pY : evp pY = y.
Proof.
  unfold pY, ev, ev_mono. cbn [fold_right fst snd Z.of_N].
  change [1] with 1. rewrite Z.pow_1_r, !Z.pow_0_r. lia.
Qed.

Lemma ev_pZ : evp pZ = z.
Proof.
  unfold pZ, ev, ev_mono. cbn [fold_right fst snd Z.of_N].
  change [1] with 1. rewrite Z.pow_1_r, !Z.pow_0_r. lia.
Qed.

Lemma is_zero_sound (q : poly) : is_zero q = true -> eqp (evp q) 0.
Proof.
  unfold is_zero. induction q as [| t q IH]; cbn [forallb].
  - reflexivity.
  - intros H. apply andb_true_iff in H as [Ht Hq].
    rewrite ev_cons, (IH Hq).
    assert (E : eqp [fst t] 0).
    { rewrite <- (reduce_eqp (fst t)). rewrite BigZ.spec_eqb in Ht.
      apply Z.eqb_eq in Ht. rewrite Ht. reflexivity. }
    rewrite E. reflexivity.
Qed.

Lemma psub_zero_eqp (q1 q2 : poly) :
  is_zero (psub q1 q2) = true -> eqp (evp q1) (evp q2).
Proof.
  intros H. apply is_zero_sound in H. rewrite ev_psub in H.
  replace (evp q1) with (evp q1 - evp q2 + evp q2) by lia. rewrite H. reflexivity.
Qed.

End PolySound.

(** *** The group law at the three levels *)

Section RCBRelated.

Context {T U : Type} (R : T -> U -> Prop).
Context (mulT addT subT : T -> T -> T) (aT b3T : T).
Context (mulU addU subU : U -> U -> U) (aU b3U : U).
Hypothesis Hmul : forall a a' b b', R a a' -> R b b' -> R (mulT a b) (mulU a' b').
Hypothesis Hadd : forall a a' b b', R a a' -> R b b' -> R (addT a b) (addU a' b').
Hypothesis Hsub : forall a a' b b', R a a' -> R b b' -> R (subT a b) (subU a' b').
Hypothesis Ha : R aT aU.
Hypothesis Hb3 : R b3T b3U.

Ltac related := repeat first [assumption | apply Hmul | apply Hadd | apply Hsub].

Lemma rcb_double_related (X Y Z : T) (X' Y' Z' : U) :
  R X X' -> R Y Y' -> R Z Z' ->
  let P := rcb_double mulT addT subT aT b3T X Y Z in
  let P' := rcb_double mulU addU subU aU b3U X' Y' Z' in
  R (fst (fst P)) (fst (fst P')) /\ R (snd (fst P)) (snd (fst P')) /\ R (snd P) (snd P').
Proof.
  intros HX HY HZ. cbv zeta. unfold rcb_double. cbn [fst snd].
  split; [|split]; related.
Qed.

Lemma rcb_add_related (X1 Y1 Z1 X2 Y2 Z2 : T) (X1' Y1' Z1' X2' Y2' Z2' : U) :
  R X1 X1' -> R Y1 Y1' -> R Z1 Z1' -> R X2 X2' -> R Y2 Y2' -> R Z2 Z2' ->
  let P := rcb_add mulT addT subT aT b3T X1 Y1 Z1 X2 Y2 Z2 in
  let P' := rcb_add mulU addU subU aU b3U X1' Y1' Z1' X2' Y2' Z2' in
  R (fst (fst P)) (fst (fst P')) /\ R (snd (fst P)) (snd (fst P')) /\ R (snd P) (snd P').
Proof.
  intros ? ? ? ? ? ?. cbv zeta. unfold rcb_add. cbn [fst snd].
  split; [|split]; related.
Qed.

End RCBRelated.

Section Identities.

Lemma double_on_curveP : is_zero (curveP (doubleP varP)) = true.
Proof. vm_cast_no_check (eq_refl true). Qed.

Lemma add_on_curveP : is_zero (curveP (addP varP baseP)) = true.
Proof. vm_cast_no_check (eq_refl true). Qed.

Lemma key_crossP :
  (let c := crossP (doubleP (addP varP baseP))
                   (addP (addP (doubleP varP) baseP) baseP) in
   is_zero (fst c) && is_zero (snd c)) = true.
Proof. vm_cast_no_check (eq_refl true). Qed.

Lemma chord_Z3P :
  is_zero (padd (pmul (snd (addP varP baseP)) (pmul pZ pZ)) chordNY) = true.
Proof. vm_cast_no_check (eq_refl true). Qed.

Lemma chord_on_curveP :
  is_zero (psub (pcube chordNX)
                (psub (pmul (pmul chordNY chordNY) pZ)
                      (pmul (pconst 7) (pcube (pmul (pmul chordD chordD) pZ))))) = true.
Proof. vm_cast_no_check (eq_refl true). Qed.

End Identities.

Section Levels.

#[local] Abbreviation p := secp256k1P.

Ltac by_ring := apply eq_subrelation; [typeclasses eauto | ring].

Lemma FpOps_mul_eqp (a b : Z) : eqp (FpOps.mul a b) (a * b).
Proof. unfold FpOps.mul. apply eqp_mod_. Qed.

Lemma FpOps_add_eqp (a b : Z) : eqp (FpOps.add a b) (a + b).
Proof. unfold FpOps.add. apply eqp_mod_. Qed.

Lemma FpOps_sub_eqp (a b : Z) : eqp (FpOps.sub a b) (a - b).
Proof. unfold FpOps.sub. apply eqp_mod_. Qed.

Lemma b3_value : FpOps.mul Point.CURVE_b 3 = 21.
Proof. reflexivity. Qed.

Lemma px_double (P : ProjPoint) :
  Point.double P =
  MkPoint (fst (fst (rcb_double FpOps.mul FpOps.add FpOps.sub Point.CURVE_a
                                (FpOps.mul Point.CURVE_b 3)
                                (Point.px P) (Point.py P) (Point.pz P))))
          (snd (fst (rcb_double FpOps.mul FpOps.add FpOps.sub Point.CURVE_a
                                (FpOps.mul Point.CURVE_b 3)
                                (Point.px P) (Point.py P) (Point.pz P))))
          (snd (rcb_double FpOps.mul FpOps.add FpOps.sub Point.CURVE_a
                           (FpOps.mul Point.CURVE_b 3)
                           (Point.px P) (Point.py P) (Point.pz P))).
Proof. unfold Point.double. now destruct (rcb_double _ _ _ _ _ _ _ _) as [[? ?] ?]. Qed.

Lemma px_add (P Q : ProjPoint) :
  Point.add P Q =
  MkPoint (fst (fst (rcb_add FpOps.mul FpOps.add FpOps.sub Point.CURVE_a
                             (FpOps.mul Point.CURVE_b 3)
                             (Point.px P) (Point.py P) (Point.pz P)
                             (Point.px Q) (Point.py Q) (Point.pz Q))))
          (snd (fst (rcb_add FpOps.mul FpOps.add FpOps.sub Point.CURVE_a
                             (FpOps.mul Point.CURVE_b 3)
                             (Point.px P) (Point.py P) (Point.pz P)
                             (Point.px Q) (Point.py Q) (Point.pz Q))))
          (snd (rcb_add FpOps.mul FpOps.add FpOps.sub Point.CURVE_a
                        (FpOps.mul Point.CURVE_b 3)
                        (Point.px P) (Point.py P) (Point.pz P)
                        (Point.px Q) (Point.py Q) (Point.pz Q))).
Proof. unfold Point.add. now destruct (rcb_add _ _ _ _ _ _ _ _ _ _ _) as [[? ?] ?]. Qed.

Lemma px_doubleZ (P : ProjPoint) :
  doubleZ P =
  MkPoint (fst (fst (rcb_double Z.mul Z.add Z.sub 0 21 (Point.px P) (Point.py P) (Point.pz P))))
          (snd (fst (rcb_double Z.mul Z.add Z.sub 0 21 (Point.px P) (Point.py P) (Point.pz P))))
          (snd (rcb_double Z.mul Z.add Z.sub 0 21 (Point.px P) (Point.py P) (Point.pz P))).
Proof. unfold doubleZ. now destruct (rcb_double _ _ _ _ _ _ _ _) as [[? ?] ?]. Qed.

Lemma px_addZ (P Q : ProjPoint) :
  addZ P Q =
  MkPoint (fst (fst (rcb_add Z.mul Z.add Z.sub 0 21 (Point.px P) (Point.py P) (Point.pz P)
                             (Point.px Q) (Point.py Q) (Point.pz Q))))
          (snd (fst (rcb_add Z.mul Z.add Z.sub 0 21 (Point.px P) (Point.py P) (Point.pz P)
                             (Point.px Q) (Point.py Q) (Point.pz Q))))
          (snd (rcb_add Z.mul Z.add Z.sub 0 21 (Point.px P) (Point.py P) (Point.pz P)
                        (Point.px Q) (Point.py Q) (Point.pz Q))).
Proof. unfold addZ. now destruct (rcb_add _ _ _ _ _ _ _ _ _ _ _) as [[? ?] ?]. Qed.

(** The model's doubling and addition are the integer formulas modulo p. *)
Lemma double_peq (P P' : ProjPoint) : peq P P' -> peq (Point.double P) (doubleZ P').
Proof.
  intros (Hx & Hy & Hz). rewrite px_double, px_doubleZ. unfold peq. cbn [Point.px Point.py Point.pz].
  apply (rcb_double_related eqp); try assumption; try reflexivity.
  - intros a a' b b' Ha Hb. now rewrite FpOps_mul_eqp, Ha, Hb.
  - intros a a' b b' Ha Hb. now rewrite FpOps_add_eqp, Ha, Hb.
  - intros a a' b b' Ha Hb. now rewrite FpOps_sub_eqp, Ha, Hb.
Qed.

Lemma add_peq (P P' Q Q' : ProjPoint) :
  peq P P' -> peq Q Q' -> peq (Point.add P Q) (addZ P' Q').
Proof.
  intros (Hx & Hy & Hz) (Hx' & Hy' & Hz'). rewrite px_add, px_addZ. unfold peq.
  cbn [Point.px Point.py Point.pz].
  apply (rcb_add_related eqp); try assumption; try reflexivity.
  - intros a a' b b' Ha Hb. now rewrite FpOps_mul_eqp, Ha, Hb.
  - intros a a' b b' Ha Hb. now rewrite FpOps_add_eqp, Ha, Hb.
  - intros a a' b b' Ha Hb. now rewrite FpOps_sub_eqp, Ha, Hb.
Qed.

Lemma peq_refl (P : ProjPoint) : peq P P.
Proof. repeat split; reflexivity. Qed.

Lemma peq_sym (P Q : ProjPoint) : peq P Q -> peq Q P.
Proof. intros (? & ? & ?). repeat split; now symmetry. Qed.

Lemma peq_trans (P Q R : ProjPoint) : peq P Q -> peq Q R -> peq P R.
Proof. intros (? & ? & ?) (? & ? & ?). repeat split; etransitivity; eassumption. Qed.

Lemma double_respects (P P' : ProjPoint) : peq P P' -> peq (Point.double P) (Point.double P').
Proof.
  intros H. apply peq_trans with (doubleZ P'); [now apply double_peq|].
  apply peq_sym, double_peq, peq_refl.
Qed.

Lemma add_respects (P P' Q Q' : ProjPoint) :
  peq P P' -> peq Q Q' -> peq (Point.add P Q) (Point.add P' Q').
Proof.
  intros H H'. apply peq_trans with (addZ P' Q'); [now apply add_peq|].
  apply peq_sym, add_peq; apply peq_refl.
Qed.

(** Both formulas are homogeneous. *)
Lemma doubleZ_scale (l : Z) (P : ProjPoint) :
  doubleZ (scale l P) = scale (l * l * l * l) (doubleZ P).
Proof.
  rewrite !px_doubleZ. unfold scale, rcb_double. cbn [fst snd Point.px Point.py Point.pz].
  f_equal; ring.
Qed.

Lemma addZ_scale_l (l : Z) (P Q : ProjPoint) :
  addZ (scale l P) Q = scale (l * l) (addZ P Q).
Proof.
  rewrite !px_addZ. unfold scale, rcb_add. cbn [fst snd Point.px Point.py Point.pz].
  f_equal; ring.
Qed.

Lemma pz_doubleZ (P : ProjPoint) :
  Point.pz (doubleZ P) = 8 * (Point.py P * Point.py P * Point.py P) * Point.pz P.
Proof.
  rewrite px_doubleZ. unfold rcb_double. cbn [fst snd Point.px Point.py Point.pz]. ring.
Qed.

Lemma doubleZ_infinity (y : Z) : doubleZ (MkPoint 0 y 0) = MkPoint 0 (y * y * y * y) 0.
Proof.
  rewrite px_doubleZ. unfold rcb_double. cbn [fst snd Point.px Point.py Point.pz].
  f_equal; ring.
Qed.

Lemma addZ_infinity (y : Z) (Q : ProjPoint) :
  addZ (MkPoint 0 y 0) Q = scale (y * y * Point.py Q) Q.
Proof.
  rewrite px_addZ. unfold scale, rcb_add. cbn [fst snd Point.px Point.py Point.pz].
  f_equal; ring.
Qed.

End Levels.

Section PolyFacts.

#[local] Abbreviation p := secp256k1P.

Ltac by_ring := apply eq_subrelation; [typeclasses eauto | ring].

Variable B : ProjPoint.
Hypothesis HB : on_curve B.

#[local] Abbreviation evB := (ev (Point.px B) (Point.py B) (Point.pz B)).

Lemma evP_var : evP B varP B.
Proof. unfold evP, varP. cbn [fst snd]. now rewrite ev_pX, ev_pY, ev_pZ. Qed.

Lemma evP_base : evP B baseP Point.BASE.
Proof. unfold evP, baseP. cbn [fst snd]. rewrite !ev_pconst. repeat split; reflexivity. Qed.

Lemma evP_double (P : ppoint) (Q : ProjPoint) :
  evP B P Q -> evP B (doubleP P) (Point.double Q).
Proof.
  intros (Hx & Hy & Hz). rewrite px_double. unfold evP, doubleP. cbn [Point.px Point.py Point.pz].
  apply (rcb_double_related (fun q v => eqp (evB q) v)); try assumption.
  - intros a a' b b' Ha Hb. now rewrite (ev_pmul _ _ _ HB), FpOps_mul_eqp, Ha, Hb.
  - intros a a' b b' Ha Hb. now rewrite (ev_padd _ _ _ HB), FpOps_add_eqp, Ha, Hb.
  - intros a a' b b' Ha Hb. now rewrite (ev_psub _ _ _ HB), FpOps_sub_eqp, Ha, Hb.
  - now rewrite ev_pconst.
  - now rewrite ev_pconst.
Qed.

Lemma evP_add (P1 P2 : ppoint) (Q1 Q2 : ProjPoint) :
  evP B P1 Q1 -> evP B P2 Q2 -> evP B (addP P1 P2) (Point.add Q1 Q2).
Proof.
  intros (Hx & Hy & Hz) (Hx' & Hy' & Hz'). rewrite px_add. unfold evP, addP.
  cbn [Point.px Point.py Point.pz].
  apply (rcb_add_related (fun q v => eqp (evB q) v)); try assumption.
  - intros a a' b b' Ha Hb. now rewrite (ev_pmul _ _ _ HB), FpOps_mul_eqp, Ha, Hb.
  - intros a a' b b' Ha Hb. now rewrite (ev_padd _ _ _ HB), FpOps_add_eqp, Ha, Hb.
  - intros a a' b b' Ha Hb. now rewrite (ev_psub _ _ _ HB), FpOps_sub_eqp, Ha, Hb.
  - now rewrite ev_pconst.
  - now rewrite ev_pconst.
Qed.

Lemma curveP_sound (P : ppoint) (Q : ProjPoint) :
  evP B P Q -> is_zero (curveP P) = true -> on_curve Q.
Proof.
  intros (Hx & Hy & Hz) H. apply (is_zero_sound (Point.px B) (Point.py B) (Point.pz B)) in H. unfold curveP, pcube in H.
  rewrite (ev_psub _ _ _ HB), (ev_padd _ _ _ HB), !(ev_pmul _ _ _ HB), ev_pconst in H.
  rewrite Hx, Hy, Hz in H. unfold on_curve.
  match type of H with eqp (?a - (?b + ?c)) 0 =>
    assert (E : eqp b (a - c)) by
      (replace b with (a - c - (a - (b + c))) by ring; rewrite H; by_ring)
  end.
  etransitivity; [|etransitivity; [exact E|]]; by_ring.
Qed.

Lemma crossP_sound (P1 P2 : ppoint) (Q1 Q2 : ProjPoint) :
  evP B P1 Q1 -> evP B P2 Q2 ->
  is_zero (fst (crossP P1 P2)) && is_zero (snd (crossP P1 P2)) = true ->
  eqp (Point.px Q1 * Point.py Q2) (Point.px Q2 * Point.py Q1) /\
  eqp (Point.pz Q1 * Point.py Q2) (Point.pz Q2 * Point.py Q1).
Proof.
  intros (Hx & Hy & Hz) (Hx' & Hy' & Hz') H. apply andb_true_iff in H as [H1 H2].
  unfold crossP in H1, H2. cbn [fst snd] in H1, H2.
  apply (psub_zero_eqp _ _ _ HB) in H1, H2.
  rewrite !(ev_pmul _ _ _ HB) in H1, H2.
  rewrite Hx, Hy, Hx', Hy' in H1. rewrite Hz, Hy, Hz', Hy' in H2. auto.
Qed.

Lemma double_on_curve : on_curve (Point.double B).
Proof. exact (curveP_sound _ _ (evP_double _ _ evP_var) double_on_curveP). Qed.

Lemma add_base_on_curve : on_curve (Point.add B Point.BASE).
Proof. exact (curveP_sound _ _ (evP_add _ _ _ _ evP_var evP_base) add_on_curveP). Qed.

(** Doubling B + G gives the same projective point as adding G twice
    to the double of B. *)
Lemma key_identity :
  let L := Point.double (Point.add B Point.BASE) in
  let R := Point.add (Point.add (Point.double B) Point.BASE) Point.BASE in
  eqp (Point.px L * Point.py R) (Point.px R * Point.py L) /\
  eqp (Point.pz L * Point.py R) (Point.pz R * Point.py L).
Proof.
  cbv zeta. apply (crossP_sound (doubleP (addP varP baseP))
                     (addP (addP (doubleP varP) baseP) baseP)).
  - apply evP_double, evP_add; [exact evP_var | exact evP_base].
  - apply evP_add; [|exact evP_base]. apply evP_add; [|exact evP_base].
    apply evP_double, evP_var.
  - exact key_crossP.
Qed.

Lemma ev_chord_Z3 (zq ny : poly) :
  eqp (evB (padd (pmul zq (pmul pZ pZ)) ny))
      (evB zq * (Point.pz B * Point.pz B) + evB ny).
Proof. now rewrite (ev_padd _ _ _ HB), !(ev_pmul _ _ _ HB), ev_pZ. Qed.

Lemma ev_chord_curve (nx ny d : poly) :
  eqp (evB (psub (pcube nx)
                 (psub (pmul (pmul ny ny) pZ)
                       (pmul (pconst 7) (pcube (pmul (pmul d d) pZ))))))
      (evB nx * (evB nx * evB nx) -
       (evB ny * evB ny * Point.pz B -
        7 * (evB d * evB d * Point.pz B *
             (evB d * evB d * Point.pz B * (evB d * evB d * Point.pz B))))).
Proof.
  unfold pcube.
  now rewrite !(ev_psub _ _ _ HB), !(ev_pmul _ _ _ HB), ev_pconst, ev_pZ.
Qed.

Lemma ev_chordD : eqp (evB chordD) (Point.px B - Point.Gx * Point.pz B).
Proof.
  unfold chordD. now rewrite (ev_psub _ _ _ HB), (ev_pmul _ _ _ HB), ev_pconst, ev_pX, ev_pZ.
Qed.

(** Away from the line through G and the point at infinity, B + G is a
    finite point: its Z is, up to sign, the numerator of the y-coordinate
    of B - G, and no point of the curve has y = 0. *)
Lemma add_base_finite :
  ~ eqp (Point.pz B) 0 ->
  ~ eqp (Point.px B - Point.Gx * Point.pz B) 0 ->
  ~ eqp (Point.pz (Point.add B Point.BASE)) 0.
Proof.
  intros Hz HD H0.
  pose proof (is_zero_sound (Point.px B) (Point.py B) (Point.pz B) _ chord_Z3P) as H1.
  pose proof (is_zero_sound (Point.px B) (Point.py B) (Point.pz B) _ chord_on_curveP) as H2.
  destruct (evP_add _ _ _ _ evP_var evP_base) as (_ & _ & HZ3).
  rewrite ev_chord_Z3, HZ3, H0 in H1.
  rewrite ev_chord_curve in H2.
  generalize dependent (evB chordNY). intros ny H1 H2.
  generalize dependent (evB chordNX). intros U H2.
  assert (HNY : eqp ny 0) by (rewrite <- H1; by_ring).
  rewrite HNY, ev_chordD in H2.
  set (W := (Point.px B - Point.Gx * Point.pz B) * (Point.px B - Point.Gx * Point.pz B)
            * Point.pz B) in *.
  apply (minus_seven_not_a_cube U W).
  - subst W. apply eqp_mul_nonzero; [apply eqp_mul_nonzero|]; assumption.
  - replace (U * U * U)
      with (U * (U * U) - (0 * 0 * Point.pz B - 7 * (W * (W * W))) + - 7 * (W * W * W)) by ring.
    rewrite H2. by_ring.
Qed.

End PolyFacts.

(** *** Points of the curve stay points of the curve *)

Section Validity.

#[local] Abbreviation p := secp256k1P.

Ltac by_ring := apply eq_subrelation; [typeclasses eauto | ring].

Ltac nonzero_product :=
  repeat match goal with |- ~ eqp (_ * _) 0 => apply eqp_mul_nonzero end.

Ltac absurd_product E :=
  revert E;
  match goal with |- eqp ?a 0 -> False => change (~ eqp a 0) end;
  nonzero_product.

Lemma eqp_cube_zero (x : Z) : eqp (x * x * x) 0 -> eqp x 0.
Proof.
  intros H. destruct (eqp_mul_zero _ _ H) as [H2 | ?]; [|assumption].
  destruct (eqp_mul_zero _ _ H2); assumption.
Qed.

Lemma on_curve_infinity (B : ProjPoint) :
  on_curve B -> eqp (Point.pz B) 0 -> eqp (Point.px B) 0.
Proof.
  unfold on_curve. intros H Hz. rewrite Hz in H. apply eqp_cube_zero. rewrite H. by_ring.
Qed.

Lemma valid_py (B : ProjPoint) : valid B -> ~ eqp (Point.py B) 0.
Proof.
  intros [Hc0 Hnz] Hy. pose proof Hc0 as Hc. unfold on_curve in Hc. rewrite Hy in Hc.
  destruct (eqp_dec (Point.pz B) 0) as [Hz | Hz].
  - apply Hnz. split; [|split; assumption]. now apply on_curve_infinity.
  - apply (minus_seven_not_a_cube (Point.px B) (Point.pz B) Hz). rewrite Hc. by_ring.
Qed.

Lemma scale_respects (l l' : Z) (P P' : ProjPoint) :
  eqp l l' -> peq P P' -> peq (scale l P) (scale l' P').
Proof.
  intros Hl (Hx & Hy & Hz). unfold peq, scale. cbn [Point.px Point.py Point.pz].
  now rewrite Hl, Hx, Hy, Hz.
Qed.

Lemma peq_infinity (B : ProjPoint) :
  on_curve B -> eqp (Point.pz B) 0 -> peq B (MkPoint 0 (Point.py B) 0).
Proof.
  intros Hc Hz. unfold peq. cbn [Point.px Point.py Point.pz].
  split; [now apply on_curve_infinity | split; [reflexivity | assumption]].
Qed.

Lemma eight_nonzero : ~ eqp 8 0.
Proof. discriminate. Qed.

Lemma valid_double (B : ProjPoint) : valid B -> valid (Point.double B).
Proof.
  intros HB. pose proof (valid_py B HB) as Hy. destruct HB as [Hc Hnz].
  split; [now apply double_on_curve|].
  intros (_ & Hy3 & Hz3).
  destruct (eqp_dec (Point.pz B) 0) as [Hz | Hz].
  - pose proof (double_peq _ _ (peq_infinity B Hc Hz)) as (_ & E & _).
    rewrite doubleZ_infinity in E. cbn [Point.py] in E. rewrite Hy3 in E. symmetry in E.
    absurd_product E; assumption.
  - pose proof (double_peq _ _ (peq_refl B)) as (_ & _ & E).
    rewrite pz_doubleZ, Hz3 in E. symmetry in E.
    absurd_product E; first [assumption | exact eight_nonzero].
Qed.

Lemma base_on_curve : on_curve Point.BASE.
Proof. unfold on_curve, eqp. vm_compute. reflexivity. Qed.

Lemma valid_base : valid Point.BASE.
Proof. split; [exact base_on_curve|]. intros (_ & _ & H). discriminate H. Qed.

Lemma Gy_nonzero : ~ eqp Point.Gy 0.
Proof. intros H. vm_compute in H. discriminate H. Qed.

(** Adding to a multiple of a point, by homogeneity. *)
Lemma add_scaled_pz (B Q Q' : ProjPoint) (l : Z) :
  peq B (scale l Q) -> ~ eqp l 0 -> ~ eqp (Point.pz (addZ Q Q')) 0 ->
  ~ eqp (Point.pz (Point.add B Q')) 0.
Proof.
  intros E0 Hl HQ H.
  pose proof (add_peq _ _ _ _ E0 (peq_refl Q')) as (_ & _ & E).
  rewrite addZ_scale_l in E. cbn [scale Point.pz] in E. rewrite H in E. symmetry in E.
  destruct (eqp_mul_zero _ _ E) as [E1 | E1]; [|contradiction].
  destruct (eqp_mul_zero _ _ E1); contradiction.
Qed.

Lemma add_scaled_py (B Q Q' : ProjPoint) (l : Z) :
  peq B (scale l Q) -> ~ eqp l 0 -> ~ eqp (Point.py (addZ Q Q')) 0 ->
  ~ eqp (Point.py (Point.add B Q')) 0.
Proof.
  intros E0 Hl HQ H.
  pose proof (add_peq _ _ _ _ E0 (peq_refl Q')) as (_ & E & _).
  rewrite addZ_scale_l in E. cbn [scale Point.py] in E. rewrite H in E. symmetry in E.
  destruct (eqp_mul_zero _ _ E) as [E1 | E1]; [|contradiction].
  destruct (eqp_mul_zero _ _ E1); contradiction.
Qed.

Lemma base_curve_value : eqp (Point.Gx * Point.Gx * Point.Gx) (Point.Gy * Point.Gy - 7).
Proof. unfold eqp. vm_compute. reflexivity. Qed.

(** G + G and G - G, by the integer formulas. *)
Lemma add_base_base_finite : ~ eqp (Point.pz (addZ Point.BASE Point.BASE)) 0.
Proof. intros H. vm_compute in H. discriminate H. Qed.

Lemma add_infinity_base : ~ eqp (Point.py (addZ (MkPoint 0 1 0) Point.BASE)) 0.
Proof. intros H. vm_compute in H. discriminate H. Qed.

Lemma add_neg_base_base :
  ~ eqp (Point.py (addZ (MkPoint Point.Gx (- Point.Gy) 1) Point.BASE)) 0.
Proof. intros H. vm_compute in H. discriminate H. Qed.

Lemma valid_add_base (B : ProjPoint) : valid B -> valid (Point.add B Point.BASE).
Proof.
  intros HB. pose proof (valid_py B HB) as Hy. destruct HB as [Hc Hnz].
  split; [now apply add_base_on_curve|].
  intros (_ & Hy3 & Hz3).
  destruct (eqp_dec (Point.pz B) 0) as [Hz | Hz].
  { refine (add_scaled_py B (MkPoint 0 1 0) Point.BASE (Point.py B) _ Hy add_infinity_base Hy3).
    pose proof (peq_infinity B Hc Hz) as (E1 & E2 & E3).
    unfold peq, scale. cbn [Point.px Point.py Point.pz] in *.
    rewrite E1, E3. repeat split; by_ring. }
  destruct (eqp_dec (Point.px B - Point.Gx * Point.pz B) 0) as [HD | HD].
  2:{ exact (add_base_finite B Hc Hz HD Hz3). }
  assert (Hx : eqp (Point.px B) (Point.Gx * Point.pz B)).
  { replace (Point.px B) with (Point.px B - Point.Gx * Point.pz B + Point.Gx * Point.pz B)
      by ring. rewrite HD. by_ring. }
  assert (Hsq : eqp (Point.py B * Point.py B)
                    (Point.Gy * Point.pz B * (Point.Gy * Point.pz B))).
  { apply (eqp_mul_cancel_l (Point.pz B)); [assumption|].
    unfold on_curve in Hc. rewrite Hx in Hc.
    pose proof base_curve_value as HG.
    replace (Point.pz B * (Point.py B * Point.py B))
      with (Point.py B * Point.py B * Point.pz B
            - 7 * (Point.pz B * Point.pz B * Point.pz B)
            + 7 * (Point.pz B * Point.pz B * Point.pz B)) by ring.
    rewrite <- Hc.
    replace (Point.Gx * Point.pz B * (Point.Gx * Point.pz B) * (Point.Gx * Point.pz B))
      with (Point.Gx * Point.Gx * Point.Gx * (Point.pz B * Point.pz B * Point.pz B)) by ring.
    rewrite HG. by_ring. }
  destruct (eqp_square_roots _ _ Hsq) as [Hy' | Hy'].
  - refine (add_scaled_pz B Point.BASE Point.BASE (Point.pz B) _ Hz add_base_base_finite Hz3).
    unfold peq, scale. cbn [Point.px Point.py Point.pz Point.BASE].
    rewrite Hx, Hy'. repeat split; by_ring.
  - refine (add_scaled_py B (MkPoint Point.Gx (- Point.Gy) 1) Point.BASE (Point.pz B) _ Hz
              add_neg_base_base Hy3).
    unfold peq, scale. cbn [Point.px Point.py Point.pz].
    rewrite Hx, Hy'. repeat split; by_ring.
Qed.

(** *** Equality of projective points *)

Lemma proj_eq_of_peq (P Q : ProjPoint) : peq P Q -> proj_eq P Q.
Proof.
  intros H. exists 1, 1. split; [discriminate|]. split; [discriminate|].
  now apply scale_respects.
Qed.

Lemma proj_eq_refl (P : ProjPoint) : proj_eq P P.
Proof. apply proj_eq_of_peq, peq_refl. Qed.

Lemma proj_eq_sym (P Q : ProjPoint) : proj_eq P Q -> proj_eq Q P.
Proof. intros (l & m & Hl & Hm & H). exists m, l. auto using peq_sym. Qed.

Lemma scale_scale (l m : Z) (P : ProjPoint) : scale l (scale m P) = scale (l * m) P.
Proof. unfold scale. cbn [Point.px Point.py Point.pz]. f_equal; ring. Qed.

Lemma proj_eq_trans (P Q R : ProjPoint) : proj_eq P Q -> proj_eq Q R -> proj_eq P R.
Proof.
  intros (l & m & Hl & Hm & H) (l' & m' & Hl' & Hm' & H').
  exists (l' * l), (m * m'). split; [now apply eqp_mul_nonzero|].
  split; [now apply eqp_mul_nonzero|].
  rewrite <- !scale_scale.
  apply peq_trans with (scale l' (scale m Q)).
  - now apply scale_respects.
  - rewrite !scale_scale. rewrite (Z.mul_comm l' m), <- !scale_scale.
    now apply scale_respects.
Qed.

Lemma double_scale (l : Z) (P : ProjPoint) :
  peq (Point.double (scale l P)) (scale (l * l * l * l) (Point.double P)).
Proof.
  apply peq_trans with (doubleZ (scale l P)); [apply double_peq, peq_refl|].
  rewrite doubleZ_scale. apply scale_respects; [reflexivity|].
  apply peq_sym, double_peq, peq_refl.
Qed.

Lemma add_scale_l (l : Z) (P Q : ProjPoint) :
  peq (Point.add (scale l P) Q) (scale (l * l) (Point.add P Q)).
Proof.
  apply peq_trans with (addZ (scale l P) Q); [apply add_peq; apply peq_refl|].
  rewrite addZ_scale_l. apply scale_respects; [reflexivity|].
  apply peq_sym, add_peq; apply peq_refl.
Qed.

Lemma double_proj (P Q : ProjPoint) :
  proj_eq P Q -> proj_eq (Point.double P) (Point.double Q).
Proof.
  intros (l & m & Hl & Hm & H).
  exists (l * l * l * l), (m * m * m * m).
  split; [nonzero_product; assumption|].
  split; [nonzero_product; assumption|].
  apply peq_trans with (Point.double (scale l P)); [apply peq_sym, double_scale|].
  apply peq_trans with (Point.double (scale m Q)); [now apply double_respects|].
  apply double_scale.
Qed.

Lemma add_proj_l (P Q R : ProjPoint) :
  proj_eq P Q -> proj_eq (Point.add P R) (Point.add Q R).
Proof.
  intros (l & m & Hl & Hm & H).
  exists (l * l), (m * m).
  split; [nonzero_product; assumption|].
  split; [nonzero_product; assumption|].
  apply peq_trans with (Point.add (scale l P) R); [apply peq_sym, add_scale_l|].
  apply peq_trans with (Point.add (scale m Q) R);
    [apply add_respects; [assumption | apply peq_refl]|].
  apply add_scale_l.
Qed.

Lemma proj_eq_pz (P Q : ProjPoint) :
  proj_eq P Q -> eqp (Point.pz Q) 0 -> eqp (Point.pz P) 0.
Proof.
  intros (l & m & Hl & Hm & (_ & _ & H)) HQ. cbn [scale Point.pz] in H.
  rewrite HQ in H. destruct (eqp_mul_zero l (Point.pz P)); [|contradiction | assumption].
  rewrite H. by_ring.
Qed.

Lemma cross_proj (L R : ProjPoint) :
  ~ eqp (Point.py L) 0 -> ~ eqp (Point.py R) 0 ->
  eqp (Point.px L * Point.py R) (Point.px R * Point.py L) ->
  eqp (Point.pz L * Point.py R) (Point.pz R * Point.py L) ->
  proj_eq L R.
Proof.
  intros HL HR Kx Kz. exists (Point.py R), (Point.py L).
  split; [assumption|]. split; [assumption|].
  unfold peq, scale. cbn [Point.px Point.py Point.pz].
  split; [|split].
  - rewrite Z.mul_comm, Kx. by_ring.
  - by_ring.
  - rewrite Z.mul_comm, Kz. by_ring.
Qed.

Lemma key_proj (B : ProjPoint) :
  valid B ->
  proj_eq (Point.double (Point.add B Point.BASE))
          (Point.add (Point.add (Point.double B) Point.BASE) Point.BASE).
Proof.
  intros HB.
  assert (HL : valid (Point.double (Point.add B Point.BASE)))
    by now apply valid_double, valid_add_base.
  assert (HR : valid (Point.add (Point.add (Point.double B) Point.BASE) Point.BASE))
    by now apply valid_add_base, valid_add_base, valid_double.
  destruct (key_identity B (proj1 HB)) as [Kx Kz].
  exact (cross_proj _ _ (valid_py _ HL) (valid_py _ HR) Kx Kz).
Qed.

Lemma infinity_add (B Q : ProjPoint) :
  on_curve B -> ~ eqp (Point.py B) 0 -> ~ eqp (Point.py Q) 0 -> eqp (Point.pz B) 0 ->
  proj_eq (Point.add B Q) Q.
Proof.
  intros Hc Hy HQ Hz.
  exists 1, (Point.py B * Point.py B * Point.py Q).
  split; [discriminate|].
  split; [nonzero_product; assumption|].
  pose proof (add_peq _ _ _ _ (peq_infinity B Hc Hz) (peq_refl Q)) as E.
  rewrite addZ_infinity in E. cbn [Point.py] in E.
  apply peq_trans with (Point.add B Q); [|exact E].
  generalize (Point.add B Q). intros S.
  unfold peq, scale. cbn [Point.px Point.py Point.pz]. repeat split; by_ring.
Qed.

Lemma infinity_add_base (B : ProjPoint) :
  valid B -> eqp (Point.pz B) 0 -> proj_eq (Point.add B Point.BASE) Point.BASE.
Proof.
  intros HB Hz.
  exact (infinity_add B Point.BASE (proj1 HB) (valid_py B HB) Gy_nonzero Hz).
Qed.

End Validity.

(** *** The order of the base point *)

Section Order.

#[local] Abbreviation n := secp256k1N.

Lemma order_certificate_checks :
  check_chain FastPow.powmod [2] secp256k1N_certificate = true.
Proof. vm_cast_no_check (eq_refl true). Qed.

Theorem secp256k1N_prime : Z.prime secp256k1N.
Proof.
  assert (Hk : Forall Z.prime [2]) by (constructor; [exact Z.prime_2 | constructor]).
  pose proof (check_chain_sound FastPow.powmod fast_powmod_spec secp256k1N_certificate [2]
                Hk order_certificate_checks) as H.
  rewrite List.Forall_forall in H. apply H.
  unfold secp256k1N_certificate. cbn [map fst].
  repeat (first [left; reflexivity | right]).
Qed.

Lemma double_base : Point.double Point.BASE = Point.add Point.BASE Point.BASE.
Proof. vm_compute. reflexivity. Qed.

(** Every multiple is a point of the curve, and the next one is that
    point plus G. *)
Lemma mulG_step (k : positive) :
  valid (mulG k) /\ proj_eq (mulG (Pos.succ k)) (Point.add (mulG k) Point.BASE).
Proof.
  unfold mulG. induction k as [k [IHv IHs] | k [IHv IHs] |]; cbn [Pos.succ Point.pos_multiply].
  - split; [now apply valid_add_base, valid_double|].
    apply proj_eq_trans with (Point.double (Point.add (Point.pos_multiply Point.BASE k) Point.BASE)).
    + now apply double_proj.
    + now apply key_proj.
  - split; [now apply valid_double | apply proj_eq_refl].
  - split; [exact valid_base|].
    change (proj_eq (Point.double Point.BASE) (Point.add Point.BASE Point.BASE)).
    rewrite double_base. apply proj_eq_refl.
Qed.

Lemma mulG_valid (k : positive) : valid (mulG k).
Proof. apply mulG_step. Qed.

(** A multiple at infinity is a period. *)
Lemma mulG_period (d : positive) :
  eqp (Point.pz (mulG d)) 0 -> forall k, proj_eq (mulG (d + k)) (mulG k).
Proof.
  intros Hd k. induction k as [| k IH] using Pos.peano_ind.
  - rewrite Pos.add_1_r.
    apply proj_eq_trans with (Point.add (mulG d) Point.BASE); [apply mulG_step|].
    apply infinity_add_base; [apply mulG_valid | assumption].
  - rewrite Pos.add_succ_r.
    apply proj_eq_trans with (Point.add (mulG (d + k)) Point.BASE); [apply mulG_step|].
    apply proj_eq_trans with (Point.add (mulG k) Point.BASE); [now apply add_proj_l|].
    apply proj_eq_sym, mulG_step.
Qed.

Lemma mulG_multiples (d : positive) :
  eqp (Point.pz (mulG d)) 0 -> forall j, eqp (Point.pz (mulG (j * d))) 0.
Proof.
  intros Hd j. induction j as [| j IH] using Pos.peano_ind.
  - now rewrite Pos.mul_1_l.
  - rewrite Pos.mul_succ_l. apply (proj_eq_pz _ (mulG (j * d))); [|assumption].
    now apply mulG_period.
Qed.

(** n.G is the point at infinity. *)
Lemma mulG_order : eqp (Point.pz (mulG orderN)) 0.
Proof.
  unfold mulG. rewrite pos_multiply_fast.
  assert (E : Point.pz (Fast.pos_multiply_Z Point.BASE orderN) = 0)
    by (vm_cast_no_check (eq_refl 0)).
  rewrite E. reflexivity.
Qed.

Lemma one_nonzero : ~ eqp 1 0.
Proof. discriminate. Qed.

(** No smaller multiple is: n is prime, so a period d < n and the
    period n would make 1 a period. *)
Theorem mulG_finite (d : positive) :
  Z.pos d < n -> valid (mulG d) /\ ~ eqp (Point.pz (mulG d)) 0.
Proof.
  intros Hd. split; [apply mulG_valid|]. intros H0.
  assert (Hn : Z.pos orderN = n) by reflexivity.
  assert (Hrel : rel_prime n (Z.pos d)).
  { apply prime_rel_prime; [apply prime_alt, secp256k1N_prime|].
    intros Hdiv. apply Z.divide_pos_le in Hdiv; lia. }
  destruct (rel_prime_bezout _ _ Hrel) as [v u Huv].
  set (a := u mod n).
  assert (Ha : 0 <= a < n) by (apply Z.mod_pos_bound; reflexivity).
  assert (Hmod : (a * Z.pos d) mod n = 1).
  { unfold a. rewrite Zmult_mod_idemp_l.
    replace (u * Z.pos d) with (1 + (- v) * n) by lia.
    rewrite Z_mod_plus_full. reflexivity. }
  assert (Ha0 : 0 < a).
  { destruct (Z.eq_dec a 0) as [E |]; [|lia]. rewrite E in Hmod. discriminate Hmod. }
  pose proof (Z.div_mod (a * Z.pos d) n ltac:(discriminate)) as Hdm. rewrite Hmod in Hdm.
  set (b := a * Z.pos d / n) in *.
  assert (Hb : 0 <= b) by (apply Z.div_pos; [nia | reflexivity]).
  pose proof (mulG_multiples d H0 (Z.to_pos a)) as HA.
  destruct (Z.eq_dec b 0) as [Hb0 | Hb0].
  - assert (E : (Z.to_pos a * d)%positive = 1%positive).
    { apply Pos2Z.inj. rewrite Pos2Z.inj_mul, Z2Pos.id by assumption. lia. }
    rewrite E in HA. apply one_nonzero. exact HA.
  - assert (E : (Z.to_pos a * d)%positive = (Z.to_pos b * orderN + 1)%positive).
    { apply Pos2Z.inj. rewrite Pos2Z.inj_add, !Pos2Z.inj_mul, !Z2Pos.id, Hn by lia. lia. }
    rewrite E in HA.
    pose proof (mulG_multiples orderN mulG_order (Z.to_pos b)) as HB.
    pose proof (mulG_period _ HB 1%positive) as Hper.
    apply one_nonzero.
    exact (proj_eq_pz _ _ (proj_eq_sym _ _ Hper) HA).
Qed.

End Order.

(** *** The inverse in the field *)

Section Invert.

(** The Euclid loop keeps b = x a0 and a = u a0 modulo M and the gcd of
    (a, b); b at least halves every two rounds, so 2 k + 1 rounds are
    enough when b < 2^k. *)
Lemma invert_loop_spec (a0 M : Z) (k : nat) :
  forall fuel a b x y u v,
    0 <= a < b -> b < 2 ^ Z.of_nat k -> (2 * k + 1 <= fuel)%nat ->
    (b - x * a0) mod M = 0 -> (a - u * a0) mod M = 0 ->
    exists x', invert_loop fuel a b x y u v = Some (Z.gcd a b, x') /\
               (Z.gcd a b - x' * a0) mod M = 0.
Proof.
  induction k as [| k IH]; intros fuel a b x y u v Hab Hb Hfuel Hx Hu.
  { cbn in Hb. lia. }
  destruct fuel as [| fuel]; [lia|]. cbn [invert_loop].
  destruct (Z.eqb_spec a 0) as [-> | Ha].
  { exists x. rewrite Z.gcd_0_l, Z.abs_eq by lia. auto. }
  unfold JS.div, JS.rem.
  rewrite Z.quot_div_nonneg, Z.rem_mod_nonneg by lia.
  pose proof (Z.mod_pos_bound b a ltac:(lia)) as Hr.
  pose proof (Z.div_mod b a Ha) as Hdm.
  assert (Hq : 1 <= b / a) by (apply Z.div_le_lower_bound; lia).
  assert (Hu' : (b mod a - (x - u * (b / a)) * a0) mod M = 0).
  { replace (b mod a - (x - u * (b / a)) * a0)
      with ((b - x * a0) + - (b / a) * (a - u * a0)) by lia.
    rewrite Zplus_mod, Hx, Zmult_mod, Hu, Z.mul_0_r. cbn.
    destruct M; reflexivity. }
  assert (Hg : Z.gcd (b mod a) a = Z.gcd a b).
  { apply Z.gcd_mod. assumption. }
  destruct fuel as [| fuel]; [lia|]. cbn [invert_loop].
  destruct (Z.eqb_spec (b mod a) 0) as [Hr0 | Hr0].
  { exists u. rewrite <- Hg, Hr0, Z.gcd_0_l, Z.abs_eq by lia. auto. }
  unfold JS.div, JS.rem.
  rewrite Z.quot_div_nonneg, Z.rem_mod_nonneg by lia.
  set (r := b mod a) in *.
  pose proof (Z.mod_pos_bound a r ltac:(lia)) as Hr2.
  assert (Hu2 : (a mod r - (u - (x - u * (b / a)) * (a / r)) * a0) mod M = 0).
  { pose proof (Z.div_mod a r Hr0) as Hdm2.
    replace (a mod r - (u - (x - u * (b / a)) * (a / r)) * a0)
      with ((a - u * a0) + - (a / r) * (r - (x - u * (b / a)) * a0)) by lia.
    rewrite Zplus_mod, Hu, Zmult_mod, Hu', Z.mul_0_r. cbn.
    destruct M; reflexivity. }
  assert (Hg2 : Z.gcd (a mod r) r = Z.gcd a b).
  { rewrite Z.gcd_mod by assumption. exact Hg. }
  rewrite <- Hg2. apply IH; try assumption; try lia.
  rewrite Nat2Z.inj_succ, Z.pow_succ_r in Hb by lia. nia.
Qed.

Lemma invert_ok (number M : Z) :
  1 < M -> Z.gcd (number mod M) M = 1 -> number <> 0 ->
  exists i, invert number M = Ok i /\ (number * i) mod M = 1 /\ 0 <= i < M.
Proof.
  intros HM Hg Hn. unfold invert.
  destruct (Z.eqb_spec number 0) as [| _]; [contradiction|].
  destruct (Z.leb_spec M 0) as [| _]; [lia|]. cbn [orb].
  rewrite !mod_eq_modulo by lia.
  pose proof (Z.mod_pos_bound number M ltac:(lia)) as Ha.
  destruct (invert_loop_spec (number mod M) M (S (Z.to_nat (Z.log2 M)))
              (2 * Z.to_nat (Z.log2 M) + 3) (number mod M) M 0 1 1 0)
    as (x & -> & Hx); try lia.
  - rewrite Nat2Z.inj_succ, Z2Nat.id by apply Z.log2_nonneg.
    apply Z.log2_spec. lia.
  - rewrite Z.mul_0_l, Z.sub_0_r. apply Z_mod_same_full.
  - rewrite Z.mul_1_l, Z.sub_diag. apply Z.mod_0_l. lia.
  - rewrite Hg in *. cbn [Z.eqb Pos.eqb]. exists (x mod M).
    split; [rewrite mod_eq_modulo by lia; reflexivity|].
    split; [|apply Z.mod_pos_bound; lia].
    rewrite Zmult_mod_idemp_r, <- Zmult_mod_idemp_l.
    replace (number mod M * x) with (1 + - (1 - x * (number mod M))) by lia.
    rewrite Zplus_mod, Z.mod_opp_l_z, Z.add_0_r, Zmod_mod by (assumption || lia).
    apply Z.mod_small. lia.
Qed.

(** In the field every nonzero element has an inverse. *)
Lemma FpOps_inv_ok (a : Z) :
  ~ eqp a 0 -> exists i, FpOps.inv a = Ok i /\ eqp (a * i) 1 /\ 0 <= i < secp256k1P.
Proof.
  intros Ha. unfold FpOps.inv.
  destruct (invert_ok a secp256k1P) as (i & Hi & Hm & Hr).
  - reflexivity.
  - apply Zgcd_1_rel_prime. apply rel_prime_sym, prime_rel_prime.
    + apply prime_alt, secp256k1P_prime.
    + intros Hd. apply Ha. apply eqp_0_divide.
      apply Z.mod_divide in Hd; [|discriminate]. rewrite Zmod_mod in Hd.
      apply Z.mod_divide; [discriminate | assumption].
  - intros ->. apply Ha. reflexivity.
  - exists i. split; [assumption|]. split; [|assumption].
    unfold eqp. rewrite Hm. reflexivity.
Qed.

End Invert.

(** *** The key derivation returns *)

Section Totality.

#[local] Abbreviation p := secp256k1P.
#[local] Abbreviation n := secp256k1N.

Ltac by_ring := apply eq_subrelation; [typeclasses eauto | ring].

Lemma is0_affine (x y : Z) : Point.is0 (MkPoint x y 1) = false.
Proof.
  unfold Point.is0, Point.equals, Point.ZERO. cbn [Point.px Point.py Point.pz].
  rewrite !FpOps_mul_mod, !Z.mul_0_r. apply andb_false_iff. right. reflexivity.
Qed.

Lemma toAffine_affine (x y : Z) :
  0 <= x < p -> 0 <= y < p -> Point.toAffine (MkPoint x y 1) = Ok (x, y).
Proof.
  intros Hx Hy. unfold Point.toAffine. rewrite is0_affine. cbn [Point.px Point.py Point.pz].
  change (FpOps.inv 1) with (Ok (A := Z) 1). cbn [bind_result].
  rewrite !FpOps_mul_mod, !Z.mul_1_r, (Z.mod_small x), (Z.mod_small y) by lia.
  reflexivity.
Qed.

Lemma pointToBytes_affine (x y : Z) :
  0 <= x < p -> 0 <= y < p -> (y * y) mod p = (x * x * x + 7) mod p ->
  pointToBytes (MkPoint x y 1) = Ok (numTo32b x).
Proof.
  intros Hx Hy Hc. apply pointToBytes_spec. exists x, y.
  rewrite toAffine_affine, assertValidity_affine by assumption. auto.
Qed.

Lemma is0_finite (Q : ProjPoint) : ~ eqp (Point.pz Q) 0 -> Point.is0 Q = false.
Proof.
  intros Hz. unfold Point.is0, Point.equals, Point.ZERO. cbn [Point.px Point.py Point.pz].
  apply andb_false_iff. right. unfold Fp.eql. apply Z.eqb_neq.
  rewrite !FpOps_mul_mod, Z.mul_0_r, Z.mul_1_l. intros H. apply Hz.
  unfold eqp. now rewrite <- H.
Qed.

(** A finite point of the curve has affine coordinates, on the curve. *)
Lemma toAffine_finite (Q : ProjPoint) :
  on_curve Q -> ~ eqp (Point.pz Q) 0 ->
  exists x y, Point.toAffine Q = Ok (x, y) /\ 0 <= x < p /\ 0 <= y < p /\
              (y * y) mod p = (x * x * x + 7) mod p.
Proof.
  intros Hc Hz. unfold Point.toAffine. rewrite (is0_finite Q Hz).
  destruct (FpOps_inv_ok (Point.pz Q) Hz) as (iz & -> & Hiz & _). cbn [bind_result].
  assert (Hzz : FpOps.mul (Point.pz Q) iz = 1).
  { rewrite FpOps_mul_mod. exact Hiz. }
  rewrite Hzz. cbn [Fp.eql Z.eqb Pos.eqb negb].
  exists (FpOps.mul (Point.px Q) iz), (FpOps.mul (Point.py Q) iz).
  split; [reflexivity|]. rewrite !FpOps_mul_mod.
  split; [apply Z.mod_pos_bound; reflexivity|].
  split; [apply Z.mod_pos_bound; reflexivity|].
  change (eqp ((Point.py Q * iz) mod p * ((Point.py Q * iz) mod p))
              ((Point.px Q * iz) mod p * ((Point.px Q * iz) mod p) * ((Point.px Q * iz) mod p)
               + 7)).
  rewrite !eqp_mod. unfold on_curve in Hc.
  generalize dependent (Point.px Q). generalize dependent (Point.py Q).
  generalize dependent (Point.pz Q). intros z _ Hiz _ y x Hc.
  transitivity (y * iz * (y * iz) * (z * iz)).
  { rewrite Hiz. by_ring. }
  transitivity ((x * x * x + 7 * (z * z * z)) * (iz * iz * iz)).
  { replace (y * iz * (y * iz) * (z * iz))
      with ((y * y * z - 7 * (z * z * z) + 7 * (z * z * z)) * (iz * iz * iz)) by ring.
    rewrite <- Hc. by_ring. }
  transitivity (x * iz * (x * iz) * (x * iz) + 7 * (z * iz * (z * iz) * (z * iz))).
  { by_ring. }
  rewrite Hiz. by_ring.
Qed.

Lemma fromAffine_curve (x y : Z) :
  0 <= x < p -> 0 <= y < p -> (y * y) mod p = (x * x * x + 7) mod p ->
  Point.fromAffine (x, y) = MkPoint x y 1.
Proof.
  intros Hx Hy Hc. unfold Point.fromAffine, Fp.eql.
  destruct (Z.eqb_spec x 0) as [-> |]; [|reflexivity].
  destruct (Z.eqb_spec y 0) as [-> |]; [|reflexivity].
  discriminate Hc.
Qed.

(** Every scalar in [1, n-1] gives a point: d.G is never the point at
    infinity, and [multiply] returns it in affine form. *)
Lemma multiply_base_total (d : Z) :
  0 < d < n ->
  exists x y, Point.multiply Point.BASE d = Ok (MkPoint x y 1) /\
              0 <= x < p /\ 0 <= y < p /\ (y * y) mod p = (x * x * x + 7) mod p.
Proof.
  intros Hd. unfold Point.multiply, Point.assertGE.
  destruct (Z.ltb_spec 0 d); [|lia]. destruct (Z.ltb_spec d n); [|lia].
  cbn [andb bind_result]. destruct d as [| d | d]; try lia. cbv zeta.
  destruct (mulG_finite d ltac:(lia)) as [[Hc _] Hz]. unfold mulG in Hc, Hz.
  destruct (toAffine_finite _ Hc Hz) as (x & y & -> & Hx & Hy & Hxy). cbn [bind_result].
  rewrite fromAffine_curve by assumption. eauto 8.
Qed.

Lemma length_numTo32b (v : Z) : length (numTo32b v) = 32%nat.
Proof. apply length_numberToBytesBE. Qed.

(** [schnorrGetExtPubKey] returns for every key value in [1, n-1]. *)
Lemma schnorrGetExtPubKey_total (priv : PrivKey) (d0 : Z) :
  key_value priv = Ok d0 -> 0 < d0 < n ->
  exists x y,
    schnorrGetExtPubKey priv
    = Ok (MkExtPubKey (MkPoint x y 1) (if Z.even y then d0 else n - d0)
                      (numberToBytesBE x 32)) /\
    Point.fromPrivateKey d0 = Ok (MkPoint x y 1) /\
    0 <= x < p /\ 0 <= y < p /\ (y * y) mod p = (x * x * x + 7) mod p.
Proof.
  intros Hk Hd.
  destruct (multiply_base_total d0 Hd) as (x & y & Hm & Hx & Hy & Hc).
  exists x, y. split; [|unfold Point.fromPrivateKey; auto].
  apply (schnorrGetExtPubKey_spec priv d0 _ Hk). cbn [point scalar bytes_].
  split; [assumption|]. split; [exact Hm|].
  exists x, y. rewrite toAffine_affine, assertValidity_affine by assumption. auto.
Qed.

End Totality.

(** * The claims *)

Section Claims.

#[local] Abbreviation p := secp256k1P.
#[local] Abbreviation n := secp256k1N.

(** C1. For every private key d whose 32-byte big-endian value lies in
    [1, n-1], every 32-byte message m and every 32-byte auxRand: if
    sign(m, d, auxRand) returns a signature sig, then sig has 64 bytes and
    verify(sig, m, getPublicKey(d)) returns true.  The tag-prefix stores
    at the two calls are any well-formed ones. *)
Theorem sign_verify_round_trip (d m aux sig : bytes) (c c2 : gmap string bytes) :
  length d = 32%nat -> 0 < bytesToInt d < n ->
  length m = 32%nat -> length aux = 32%nat ->
  cache_ok c -> cache_ok c2 ->
  fst (schnorrSign m (PrivBytes d) aux c) = Ok sig ->
  length sig = 64%nat /\
  exists pk, schnorrGetPublicKey d = Ok pk /\ fst (schnorrVerify sig m pk c2) = Ok true.
Proof. intros _ _ _ _ Hc Hc2 Hs. exact (sign_then_verify d m aux sig c c2 Hc Hc2 Hs). Qed.

Lemma sign_verify_round_trip_witness :
  length Vectors.signature0 = 64%nat /\
  exists pk, schnorrGetPublicKey Vectors.seckey3 = Ok pk /\
             fst (schnorrVerify Vectors.signature0 Vectors.zeros32 pk ∅) = Ok true.
Proof.
  apply (sign_verify_round_trip Vectors.seckey3 Vectors.zeros32 Vectors.zeros32
           Vectors.signature0 ∅ ∅).
  - reflexivity.
  - vm_compute. split; reflexivity.
  - reflexivity.
  - reflexivity.
  - exact cache_ok_empty.
  - exact cache_ok_empty.
  - exact sign_vector0.
Defined.

(** C2. For every signature, message and public key, of any contents
    and lengths, verify returns a boolean and never throws: whatever the
    [try] block throws becomes [false], and so do a signature that is not
    64 bytes long, a public key that is not 32 bytes long, a public key x
    that lift_x refuses (out of range or without a square root), r outside
    (0, p), s outside (0, n), and a point at infinity from the double
    scalar multiplication. *)
Theorem schnorrVerify_never_throws (sig m pk : bytes) (c : gmap string bytes) :
  let verdict := fst (schnorrVerify sig m pk c) in
  let r := bytesToInt (firstn 32 sig) in
  let s := bytesToInt (firstn 32 (skipn 32 sig)) in
  (exists b, verdict = Ok b) /\
  (forall e, fst (schnorrVerify_try sig m pk c) = Err e -> verdict = Ok false) /\
  (length sig <> 64%nat -> verdict = Ok false) /\
  (length pk <> 32%nat -> verdict = Ok false) /\
  (forall e, lift_x (bytesToInt pk) = Err e -> verdict = Ok false) /\
  (fe r = false -> verdict = Ok false) /\
  (ge s = false -> verdict = Ok false) /\
  (forall P Pb,
     lift_x (bytesToInt pk) = Ok P -> pointToBytes P = Ok Pb ->
     GmulAdd P s (modN (- challenge_of (stored_prefix c TAGS.challenge)
                                       [numTo32b r; Pb; m])) = Ok None ->
     verdict = Ok false).
Proof.
  cbv zeta. rewrite schnorrVerify_result.
  split; [eauto|].
  split. { intros e He. rewrite <- schnorrVerify_try_result, He. reflexivity. }
  unfold verify_result, hex32ToInt.
  destruct (ensureBytes pk (Some 32%nat)) as [pk' | e] eqn:Epk; cbn [bind_result].
  2:{ repeat split; reflexivity. }
  apply ensureBytes_length in Epk as [-> Hpk].
  destruct (lift_x (bytesToInt pk)) as [P | e] eqn:EP; cbn [bind_result].
  2:{ repeat split; reflexivity. }
  destruct (ensureBytes sig (Some 64%nat)) as [sig' | e] eqn:Esig; cbn [bind_result].
  2:{ repeat split; reflexivity. }
  apply ensureBytes_length in Esig as [-> Hsig].
  destruct (fe (bytesToInt (firstn 32 sig))) eqn:Er; cbn [negb].
  2:{ repeat split; reflexivity. }
  destruct (ge (bytesToInt (firstn 32 (skipn 32 sig)))) eqn:Es; cbn [negb].
  2:{ repeat split; reflexivity. }
  change (ensureBytes m None) with (Ok m). cbn [bind_result].
  split; [intros; contradiction|]. split; [intros; contradiction|].
  split; [discriminate|]. split; [discriminate|]. split; [discriminate|].
  intros P' Pb H. apply Ok_inj in H. subst P'. intros HPb HR.
  rewrite HPb. cbn [bind_result]. cbv zeta. rewrite HR. reflexivity.
Qed.

Lemma schnorrVerify_never_throws_witness :
  fst (schnorrVerify [] Vectors.zeros32 Vectors.seckey3 ∅) = Ok false.
Proof.
  refine (proj1 (proj2 (proj2 (schnorrVerify_never_throws [] Vectors.zeros32
                                 Vectors.seckey3 ∅))) _).
  discriminate.
Defined.

(** C3. For every scalar k in [0, n), splitScalar(k) returns
    (k1, k1neg, k2, k2neg) with (+-k1 + lambda (+-k2)) mod n = k mod n,
    each sign negative exactly when its flag is set, and k1 < 2^128 and
    k2 < 2^128. *)
Theorem splitScalar_reconstructs (k : Z) :
  0 <= k < n ->
  exists s,
    splitScalar k = Ok s /\
    (signed (k1neg s) (k1 s) + Endo.lambda * signed (k2neg s) (k2 s)) mod n = k mod n /\
    0 <= k1 s < 2 ^ 128 /\ 0 <= k2 s < 2 ^ 128.
Proof. exact (splitScalar_correct k). Qed.

Lemma splitScalar_reconstructs_witness :
  exists s,
    splitScalar Vectors.scalar_k = Ok s /\
    (signed (k1neg s) (k1 s) + Endo.lambda * signed (k2neg s) (k2 s)) mod n
      = Vectors.scalar_k mod n /\
    0 <= k1 s < 2 ^ 128 /\ 0 <= k2 s < 2 ^ 128.
Proof.
  apply (splitScalar_reconstructs Vectors.scalar_k).
  unfold Vectors.scalar_k, secp256k1N. lia.
Defined.

(** C4. For every field element y in [0, p): if y is a quadratic
    residue, sqrtMod(y) returns r with r^2 mod p = y; if y is a
    non-residue, sqrtMod(y) fails with the no-square-root error; it never
    returns a value whose square differs from y. *)
Theorem sqrtMod_correct (y : Z) :
  0 <= y < p ->
  ((exists z, (z * z) mod p = y) -> exists r, sqrtMod y = Ok r /\ (r * r) mod p = y) /\
  (~ (exists z, (z * z) mod p = y) -> sqrtMod y = Err NoSquareRoot) /\
  (forall r, sqrtMod y = Ok r -> (r * r) mod p = y).
Proof.
  intros Hy. split; [|split].
  - intros Hqr. destruct (sqrtMod_residue y Hy Hqr) as (r & Hr & Hsq & _). eauto.
  - apply sqrtMod_non_residue.
  - intros r. apply sqrtMod_sound.
Qed.

Lemma sqrtMod_correct_witness :
  (exists r, sqrtMod 4 = Ok r /\ (r * r) mod p = 4) /\
  sqrtMod 132 = Err NoSquareRoot.
Proof.
  split.
  - refine (proj1 (sqrtMod_correct 4 _) _).
    + unfold secp256k1P. lia.
    + exists 2. reflexivity.
  - refine (proj1 (proj2 (sqrtMod_correct 132 _)) _).
    + unfold secp256k1P. lia.
    + exact five_cubed_plus_7_non_residue.
Defined.

(** C5. For every integer x: lift_x(x) fails if x is not in (0, p) or
    if x^3 + 7 mod p has no square root; otherwise it returns a point
    (x, y) with y even and y^2 = x^3 + 7 (mod p). *)
Theorem lift_x_correct (x : Z) :
  (~ (0 < x < p) -> lift_x x = Err BadPublicKeyX) /\
  (0 < x < p -> ~ (exists z, (z * z) mod p = (x * x * x + 7) mod p) ->
   lift_x x = Err NoSquareRoot) /\
  (0 < x < p -> (exists z, (z * z) mod p = (x * x * x + 7) mod p) ->
   exists y,
     lift_x x = Ok (MkPoint x y 1) /\
     0 <= y < p /\ Z.even y = true /\ (y * y) mod p = (x * x * x + 7) mod p).
Proof.
  split; [|split].
  - apply lift_x_out_of_range.
  - apply lift_x_no_root.
  - apply lift_x_even.
Qed.

Lemma lift_x_correct_witness :
  lift_x 0 = Err BadPublicKeyX /\
  lift_x 5 = Err NoSquareRoot /\
  exists y,
    lift_x Point.Gx = Ok (MkPoint Point.Gx y 1) /\
    0 <= y < p /\ Z.even y = true /\
    (y * y) mod p = (Point.Gx * Point.Gx * Point.Gx + 7) mod p.
Proof.
  split; [|split].
  - apply (proj1 (lift_x_correct 0)). lia.
  - apply (proj1 (proj2 (lift_x_correct 5))).
    + unfold secp256k1P. lia.
    + exact five_cubed_plus_7_non_residue.
  - apply (proj2 (proj2 (lift_x_correct Point.Gx))).
    + unfold Point.Gx, secp256k1P. lia.
    + exists Point.Gy. reflexivity.
Defined.

(** C6, as the source has it.  The claim's first part fails: the point
    returned for the private key 6 has an odd y. *)
Lemma getExtPubKey_returns_odd_point :
  schnorrGetExtPubKey (PrivBytes Vectors.seckey6) = Ok Vectors.ext6 /\
  Point.hasEvenY (point Vectors.ext6) = Ok false.
Proof. split; [exact extpubkey_of_6 | exact point6_has_odd_y]. Qed.

(** C6, amended. For every private key whose value d0 lies in
    [1, n-1], getExtendedPublicKey returns a triple (P, d, px) in which P
    is the point d0.G itself, as the curve library computed it and not
    negated (so its y may be odd), d equals d0 if d0.G has even y and
    n - d0 otherwise, and px is the 32-byte big-endian encoding of the
    x-coordinate of P. *)
Theorem schnorrGetExtPubKey_normalises (priv : PrivKey) (d0 : Z) :
  key_value priv = Ok d0 -> 0 < d0 < n ->
  exists ext x y,
    schnorrGetExtPubKey priv = Ok ext /\
    Point.fromPrivateKey d0 = Ok (point ext) /\
    Point.toAffine (point ext) = Ok (x, y) /\
    Point.assertValidity (point ext) = Ok tt /\
    (y * y) mod p = (x * x * x + 7) mod p /\
    scalar ext = (if Z.even y then d0 else n - d0) /\
    bytes_ ext = numberToBytesBE x 32.
Proof.
  intros Hk Hd.
  destruct (schnorrGetExtPubKey_total priv d0 Hk Hd) as (x & y & Hext & Hfrom & Hx & Hy & Hc).
  eexists. exists x, y. split; [exact Hext|]. cbn [point scalar bytes_].
  rewrite toAffine_affine, assertValidity_affine by assumption. auto 8.
Qed.

Lemma schnorrGetExtPubKey_normalises_witness :
  exists ext x y,
    schnorrGetExtPubKey (PrivBytes Vectors.seckey6) = Ok ext /\
    Point.fromPrivateKey 6 = Ok (point ext) /\
    Point.toAffine (point ext) = Ok (x, y) /\
    Point.assertValidity (point ext) = Ok tt /\
    (y * y) mod p = (x * x * x + 7) mod p /\
    scalar ext = (if Z.even y then 6 else n - 6) /\
    bytes_ ext = numberToBytesBE x 32.
Proof.
  apply (schnorrGetExtPubKey_normalises (PrivBytes Vectors.seckey6) 6).
  - reflexivity.
  - unfold secp256k1N. lia.
Defined.

(** C7, as the source has it.  The claim fails: a 31-byte message is
    signed, not refused. *)
Lemma sign_accepts_31_byte_message :
  length Vectors.message31 <> 32%nat /\
  fst (schnorrSign Vectors.message31 (PrivBytes Vectors.seckey6)
         Vectors.aux_counting ∅) = Ok Vectors.signature31.
Proof. split; [discriminate | exact sign_message31]. Qed.

(** C7, amended. For every message, whatever its byte length, a
    well-formed private key (32 bytes, or a bigint) and a 32-byte auxRand,
    sign does not fail with a malformed-encoding error: the message
    length is not checked.  When it fails it is because the curve library
    refused the scalar or the point, the nonce was zero, or the
    self-check failed. *)
Theorem sign_never_rejects_message_length (m : bytes) (priv : PrivKey) (aux : bytes)
    (c : gmap string bytes) :
  key_well_formed priv -> length aux = 32%nat ->
  fst (schnorrSign m priv aux c) <> Err MalformedEncoding /\
  forall e, fst (schnorrSign m priv aux c) = Err e ->
            point_error e \/ e = NonceIsZero \/ e = SignatureSelfCheckFailure.
Proof.
  intros Hk Haux.
  assert (H : forall e, fst (schnorrSign m priv aux c) = Err e ->
            point_error e \/ e = NonceIsZero \/ e = SignatureSelfCheckFailure)
    by (intros e; now apply schnorrSign_error).
  split; [|exact H].
  intros E. destruct (H _ E) as [[? | ?] | [? | ?]]; discriminate.
Qed.

Lemma sign_never_rejects_message_length_witness :
  fst (schnorrSign Vectors.message31 (PrivBytes Vectors.seckey6)
         Vectors.aux_counting ∅) <> Err MalformedEncoding.
Proof.
  refine (proj1 (sign_never_rejects_message_length Vectors.message31
                   (PrivBytes Vectors.seckey6) Vectors.aux_counting ∅ _ _)).
  - reflexivity.
  - reflexivity.
Defined.

(** C8. For every scalar k in [0, n), splitScalar(k) does not fail:
    the branch that throws when an adjusted magnitude still exceeds 2^128
    is not reached with the curve's lattice constants and order. *)
Theorem splitScalar_never_fails (k : Z) :
  0 <= k < n ->
  splitScalar k <> Err EndomorphismSplitFailure /\ exists s, splitScalar k = Ok s.
Proof.
  intros Hk. destruct (splitScalar_correct k Hk) as (s & Hs & _).
  split; [rewrite Hs; discriminate | eauto].
Qed.

Lemma splitScalar_never_fails_witness :
  splitScalar Vectors.scalar_k <> Err EndomorphismSplitFailure /\
  exists s, splitScalar Vectors.scalar_k = Ok s.
Proof.
  apply (splitScalar_never_fails Vectors.scalar_k).
  unfold Vectors.scalar_k, secp256k1N. lia.
Defined.

(** C9, at the failing input.  The tag "constructor" read from the
    empty tag-prefix object yields the inherited member of
    [Object.prototype], not [undefined]: no prefix is computed, the byte
    helpers refuse the value, and [taggedHash] throws instead of
    returning H(H(tag) || H(tag) || data). *)
Theorem taggedHash_inherited_tag_throws :
  taggedHash "constructor" [] ∅ = (Err NotByteArray, ∅) /\
  fst (taggedHash "constructor" [] ∅) <> Ok (tagged_hash_spec "constructor" []).
Proof. split; [reflexivity | discriminate]. Qed.

(** C10. Neither sign nor verify checks the message length: for the
    private key 6, a 32-byte auxRand and a 31-byte message, sign returns
    a 64-byte signature and verify accepts it under getPublicKey(6). *)
Theorem sign_verify_ignore_message_length :
  exists d aux m sig pk : bytes,
    length d = 32%nat /\ 0 < bytesToInt d < n /\ length aux = 32%nat /\
    length m = 31%nat /\
    fst (schnorrSign m (PrivBytes d) aux ∅) = Ok sig /\
    length sig = 64%nat /\
    schnorrGetPublicKey d = Ok pk /\
    forall c, cache_ok c -> fst (schnorrVerify sig m pk c) = Ok true.
Proof.
  exists Vectors.seckey6, Vectors.aux_counting, Vectors.message31,
         Vectors.signature31, Vectors.pubkey6.
  split; [reflexivity|]. split; [vm_compute; split; reflexivity|].
  split; [reflexivity|]. split; [reflexivity|].
  split; [exact sign_message31|]. split; [reflexivity|].
  split; [exact pubkey_of_6|].
  intros c Hc.
  destruct (sign_then_verify _ _ _ _ ∅ c cache_ok_empty Hc sign_message31)
    as (_ & pk & Hpk & Hv).
  rewrite pubkey_of_6 in Hpk. apply Ok_inj in Hpk. now subst pk.
Qed.

End Claims.
